(** * espaloma: factor-graph construction and the atom-to-factor update

    A shallow embedding of [espaloma/nn/factornet.py] and of
    [espaloma/data/qcarchive_utils.py].  Python dictionaries are finite maps,
    Python exceptions are the [Raise] outcome of a small result monad, and the
    in-place mutation of the DGL graph is explicit state passing: every
    function that writes onto [g] returns the new graph. *)

From stdpp Require Import gmap strings list fin_maps pretty.
From Stdlib Require Import ZArith Lia.


(* ===================================================================== *)
(** ** Exceptions *)
(* ===================================================================== *)

(** The exceptions the modelled code can meet: Python's [KeyError] and
    [ValueError], DGL's [DGLError], and torch's [RuntimeError] (raised by
    [nn.Linear] and [torch.cat] on a shape mismatch). *)
Inductive exn : Type :=
  | KeyError (key : string)
  | ValueError (msg : string)
  | DGLError (msg : string)
  | RuntimeError (msg : string).

Inductive res (A : Type) : Type :=
  | Return (a : A)
  | Raise (e : exn).
Arguments Return {A} a.
Arguments Raise {A} e.

Global Instance res_ret : MRet res := fun _ a => Return a.
Global Instance res_bind : MBind res := fun _ _ f c =>
  match c with
  | Return a => f a
  | Raise e => Raise e
  end.

Global Instance res_fmap : FMap res := fun _ _ f c =>
  match c with
  | Return a => Return (f a)
  | Raise e => Raise e
  end.

Definition raises {A} (c : res A) : Prop := ∃ e, c = Raise e.
Definition returns {A} (c : res A) : Prop := ∃ a, c = Return a.

(* ===================================================================== *)
(** ** Scalars and tensors *)
(* ===================================================================== *)

(** float32 arithmetic is not modelled: tensors hold scalars of an abstract
    type with the operations the code uses.  The laws a statement needs (for
    instance that addition commutes, as IEEE-754 addition does) are explicit
    hypotheses of that statement. *)
Class Scalar (R : Type) : Type := {
  Rzero : R;
  Rone : R;
  Radd : R → R → R;
  Rmul : R → R → R;
  Rrelu : R → R
}.

Global Instance Z_scalar : Scalar Z := {|
  Rzero := 0%Z;
  Rone := 1%Z;
  Radd := Z.add;
  Rmul := Z.mul;
  Rrelu := Z.max 0
|}.

(** A two-dimensional tensor: its rows, and its number of columns (which
    torch keeps even when there are no rows). *)
Record Tensor (R : Type) : Type := mkTensor {
  ncols : nat;
  rows : list (list R)
}.
Arguments mkTensor {R} ncols rows.
Arguments ncols {R} t.
Arguments rows {R} t.

Definition nrows {R} (t : Tensor R) : nat := length (rows t).

Definition tensor_wf {R} (t : Tensor R) : Prop :=
  Forall (λ r, length r = ncols t) (rows t).

(* ===================================================================== *)
(** ** The element vocabulary and [one_hot_elements] *)
(* ===================================================================== *)

Definition allowable_atomic_numbers : list Z := [1; 6; 7; 8]%Z.
Definition ATOM_DIM : nat := length allowable_atomic_numbers.

(** [set(allowable_atomic_numbers)]: CPython's set of small non-negative
    integers.  [hash(i) = i]; a new set has a table of 8 slots (mask 7) and
    is not resized before its fifth key; a key goes to slot [hash & mask], and
    on a collision to [(5*i + 1 + perturb) & mask] with [perturb] shifted right
    by 5 each time (a table of 8 slots has no linear probes); iteration
    walks the table from slot 0 upward. *)
Fixpoint set_add_entry (fuel : nat) (table : list (option Z))
    (i : Z) (perturb : Z) (key : Z) : list (option Z) :=
  match fuel with
  | O => table
  | S fuel' =>
      match table !! Z.to_nat i with
      | Some None => <[Z.to_nat i := Some key]> table
      | Some (Some k) =>
          if decide (k = key) then table
          else
            let perturb' := Z.shiftr perturb 5 in
            set_add_entry fuel' table
              (Z.land (i * 5 + 1 + perturb') 7) perturb' key
      | None => table
      end
  end.

Definition py_set (keys : list Z) : list Z :=
  omap id
    (foldl (λ table key, set_add_entry 64 table (Z.land key 7) key key)
       (replicate 8 None) keys).

(** [dgllife.utils.one_hot_encoding(x, allowable_set)] with the default
    [encode_unknown=False]: [list(map(lambda s: x == s, allowable_set))]. *)
Definition one_hot_encoding (x : Z) (allowable_set : list Z) : list bool :=
  (λ s, bool_decide (x = s)) <$> allowable_set.

Section Tensors.
Context {R : Type} `{Scalar R}.

Definition float_of_bool (b : bool) : R := if b then Rone else Rzero.

(** [torch.tensor(data, dtype=torch.float32)] of a list of rows; an empty
    list gives the one-dimensional empty tensor, kept here as no rows of
    width 0. *)
Definition torch_tensor (data : list (list R)) : Tensor R :=
  mkTensor (match data with [] => 0 | r :: _ => length r end) data.

Definition one_hot_elements (atomic_numbers : list Z) : Tensor R :=
  torch_tensor
    ((λ f, float_of_bool <$>
             one_hot_encoding f (py_set allowable_atomic_numbers))
       <$> atomic_numbers).

(** [torch.zeros((N, M))]. *)
Definition torch_zeros (n m : nat) : Tensor R :=
  mkTensor m (replicate n (replicate m Rzero)).

End Tensors.


(* ===================================================================== *)
(** ** The molecule and its structural tuples *)
(* ===================================================================== *)

(** What the code reads of an openforcefield [Molecule]. *)
Record Atom : Type := mkAtom {
  atomic_number : Z;
  molecule_atom_index : nat
}.

Record Bond : Type := mkBond {
  atom1 : Atom;
  atom2 : Atom
}.

Record Molecule : Type := mkMolecule {
  atoms : list Atom;
  bonds : list Bond;
  angles : list (Atom * Atom * Atom);
  propers : list (Atom * Atom * Atom * Atom)
}.

(** [t[k]] on the index tuples of arity 2, 3 and 4; the code only reads
    slots below the arity. *)
Definition pair_get (t : nat * nat) (k : nat) : nat :=
  match k with 0 => t.1 | _ => t.2 end.

Definition triple_get (t : nat * nat * nat) (k : nat) : nat :=
  let '(a, b, c) := t in
  match k with 0 => a | 1 => b | _ => c end.

Definition quad_get (t : nat * nat * nat * nat) (k : nat) : nat :=
  let '(a, b, c, d) := t in
  match k with 0 => a | 1 => b | 2 => c | _ => d end.

Definition bond_tuples (offmol : Molecule) : list (nat * nat) :=
  (λ bond, (molecule_atom_index (atom1 bond),
            molecule_atom_index (atom2 bond))) <$> bonds offmol.

Definition angle_tuples (offmol : Molecule) : list (nat * nat * nat) :=
  (λ '(a, b, c), (molecule_atom_index a, molecule_atom_index b,
                  molecule_atom_index c)) <$> angles offmol.

Definition torsion_tuples (offmol : Molecule)
    : list (nat * nat * nat * nat) :=
  (λ '(a, b, c, d), (molecule_atom_index a, molecule_atom_index b,
                     molecule_atom_index c, molecule_atom_index d))
    <$> propers offmol.

(* ===================================================================== *)
(** ** Edge dictionaries *)
(* ===================================================================== *)

(** A canonical edge type [(source type, relation, destination type)]. *)
Abbreviation etype := (string * string * string)%type.
Abbreviation edge_dict := (gmap etype (list (nat * nat))).

(** [f'in[{atom}]'] *)
Definition in_label (k : nat) : string := "in[" +:+ pretty k +:+ "]".

Definition forward_etype (factor : string) (k : nat) : etype :=
  ("atom", in_label k, factor).

Definition reverse_etype (factor : string) : etype :=
  (factor, "contains", "atom").

(** [d[key].append(x)] *)
Definition dict_append (key : etype) (x : nat * nat) (d : edge_dict)
    : edge_dict :=
  alter (λ l, l ++ [x]) key d.

(** The body shared by [form_bond_dict_ordered], [form_angle_dict_ordered]
    and [form_torsion_dict_ordered], which differ in the factor name, the
    arity and the tuple list only. *)
Definition form_dict_ordered {T} (get : T → nat → nat) (factor : string)
    (arity : nat) (tuples : list T) : edge_dict :=
  let d0 :=
    foldl (λ d atom, <[forward_etype factor atom := []]> d)
      (∅ : edge_dict) (seq 0 arity) in
  let d1 := <[reverse_etype factor := []]> d0 in
  foldl (λ d atom,
    foldl (λ d (it : nat * T),
      dict_append (reverse_etype factor) (it.1, get it.2 atom)
        (dict_append (forward_etype factor atom) (get it.2 atom, it.1) d))
      d (imap pair tuples))
    d1 (seq 0 arity).

Definition form_bond_dict_ordered (offmol : Molecule) : edge_dict :=
  form_dict_ordered pair_get "bond" 2 (bond_tuples offmol).

Definition form_angle_dict_ordered (offmol : Molecule) : edge_dict :=
  form_dict_ordered triple_get "angle" 3 (angle_tuples offmol).

Definition form_torsion_dict_ordered (offmol : Molecule) : edge_dict :=
  form_dict_ordered quad_get "torsion" 4 (torsion_tuples offmol).

(** [d.update(other)]: the entries of [other] win. *)
Definition dict_update (d other : edge_dict) : edge_dict := other ∪ d.

(** The [data_dict] of [offmol_to_heterograph]: an empty dictionary updated
    with the bond, angle and torsion relations. *)
Definition data_dict_of (offmol : Molecule) : edge_dict :=
  let data_dict : edge_dict := ∅ in
  let data_dict := dict_update data_dict (form_bond_dict_ordered offmol) in
  let data_dict := dict_update data_dict (form_angle_dict_ordered offmol) in
  dict_update data_dict (form_torsion_dict_ordered offmol).

(* ===================================================================== *)
(** ** The DGL heterograph *)
(* ===================================================================== *)

(** A heterograph: the number of nodes of each node type, the edge list of
    each relation (edge ids are list positions), and the node feature
    table, keyed by node type and attribute name. *)
Record DGLHeteroGraph (R : Type) : Type := mkGraph {
  num_nodes : gmap string nat;
  edges : edge_dict;
  ndata : gmap (string * string) (Tensor R)
}.
Arguments mkGraph {R} num_nodes edges ndata.
Arguments num_nodes {R} _.
Arguments edges {R} _.
Arguments ndata {R} _.

(** The node count one relation forces on node type [ntype]: the largest id
    at an endpoint of that type, plus one. *)
Definition endpoint_bound (ntype : string)
    (rel : etype * list (nat * nat)) : nat :=
  let '((s, _, d), es) := rel in
  (if decide (s = ntype) then max_list_with (λ e, S e.1) es else 0)
    `max`
  (if decide (d = ntype) then max_list_with (λ e, S e.2) es else 0).

Definition infer_num_nodes (data_dict : edge_dict) (ntype : string) : nat :=
  max_list_with (endpoint_bound ntype) (map_to_list data_dict).

Definition node_types (data_dict : edge_dict) : gset string :=
  list_to_set ((map_to_list data_dict) ≫= λ rel, [rel.1.1.1; rel.1.2]).

(** [dgl.heterograph(data_dict)] without [num_nodes_dict]: the node types
    are the endpoint types of the relations, and the number of nodes of a
    type is the largest id appearing at an endpoint of that type, plus one
    (zero when no id appears).  No feature is attached yet. *)
Definition dgl_heterograph {R : Type} (data_dict : edge_dict) : DGLHeteroGraph R :=
  mkGraph
    (set_to_map (λ t, (t, infer_num_nodes data_dict t))
       (node_types data_dict))
    data_dict
    ∅.

Section Graph.
Context {R : Type} `{Scalar R}.

(** [g.number_of_nodes(ntype)] *)
Definition number_of_nodes (g : DGLHeteroGraph R) (ntype : string)
    : res nat :=
  match num_nodes g !! ntype with
  | Some n => Return n
  | None => Raise (DGLError "unknown node type")
  end.

(** [g.nodes[ntype].data[name]] *)
Definition get_ndata (g : DGLHeteroGraph R) (ntype name : string)
    : res (Tensor R) :=
  match ndata g !! (ntype, name) with
  | Some t => Return t
  | None => Raise (KeyError name)
  end.

(** [g.nodes[ntype].data[name] = val]: DGL expects one feature row per
    node of the type; the entry is replaced when the name is taken. *)
Definition set_ndata (g : DGLHeteroGraph R) (ntype name : string)
    (val : Tensor R) : res (DGLHeteroGraph R) :=
  N ← number_of_nodes g ntype;
  if decide (nrows val = N)
  then Return (mkGraph (num_nodes g) (edges g)
                 (<[(ntype, name) := val]> (ndata g)))
  else Raise (DGLError
    "Expect number of features to match number of nodes").

(** [for x in xs: g = body(g, x)] in the result monad. *)
Fixpoint for_each {A S} (body : S → A → res S) (s : S) (xs : list A)
    : res S :=
  match xs with
  | [] => Return s
  | x :: xs' => s' ← body s x; for_each body s' xs'
  end.

Definition offmol_to_heterograph (offmol : Molecule)
    : res (DGLHeteroGraph R) :=
  (* initialize edges *)
  let data_dict := data_dict_of offmol in
  (* create factor graph from edge information *)
  let factor_graph := dgl_heterograph data_dict in
  (* initialize atom representation *)
  let atomic_numbers := atomic_number <$> atoms offmol in
  let atom_data := one_hot_elements atomic_numbers in
  factor_graph ← set_ndata factor_graph "atom" "element" atom_data;
  (* initialize factor representation *)
  for_each (λ factor_graph factor,
      N ← number_of_nodes factor_graph factor;
      set_ndata factor_graph factor "initial_representation"
        (torch_zeros N 1))
    factor_graph ["bond"; "angle"; "torsion"].

End Graph.

(** The three factor types, with their node type name, arity and tuples. *)
Inductive factor_type : Type := bond | angle | torsion.

Definition factor_name (f : factor_type) : string :=
  match f with bond => "bond" | angle => "angle" | torsion => "torsion" end.

Definition arity (f : factor_type) : nat :=
  match f with bond => 2 | angle => 3 | torsion => 4 end.

(* ===================================================================== *)
(** ** Tensor operations and the MLP *)
(* ===================================================================== *)

Section Network.
Context {R : Type} `{Scalar R}.

(** Row [i] of a tensor (all zeros outside the row range, which the code
    never reads). *)
Definition row (t : Tensor R) (i : nat) : list R :=
  default (replicate (ncols t) Rzero) (rows t !! i).

Definition vadd (x y : list R) : list R := zip_with Radd x y.

(** [a + b] on tensors of one shape. *)
Definition tensor_add (a b : Tensor R) : res (Tensor R) :=
  if decide (nrows a = nrows b ∧ ncols a = ncols b)
  then Return (mkTensor (ncols a) (zip_with vadd (rows a) (rows b)))
  else Raise (RuntimeError "The size of tensor a must match the size of tensor b").

(** [torch.cat(tensors, dim=1)]: the tensors must agree on the number of
    rows; the rows are joined left to right. *)
Definition cat_rows (n : nat) (tensors : list (Tensor R)) : list (list R) :=
  (λ i, tensors ≫= λ t, row t i) <$> seq 0 n.

Definition torch_cat (tensors : list (Tensor R)) : res (Tensor R) :=
  match tensors with
  | [] => Raise (RuntimeError "expected a non-empty list of Tensors")
  | t :: _ =>
      if decide (Forall (λ u, nrows u = nrows t) tensors)
      then Return (mkTensor (sum_list (ncols <$> tensors))
                     (cat_rows (nrows t) tensors))
      else Raise (RuntimeError "Sizes of tensors must match except in dimension 1")
  end.

(** [F.relu] *)
Definition relu (x : Tensor R) : Tensor R :=
  mkTensor (ncols x) ((λ r : list R, Rrelu <$> r) <$> rows x).

(** [nn.Linear(in_features, out_features)]: [weight j i] for output [j] and
    input [i], and [bias j]. *)
Record Linear : Type := mkLinear {
  in_features : nat;
  out_features : nat;
  weight : nat → nat → R;
  bias : nat → R
}.

Definition dot (x : list R) (w : nat → R) : R :=
  foldl Radd Rzero (imap (λ i xi, Rmul xi (w i)) x).

(** One row of [x @ weight.T + bias]. *)
Definition Linear_row (l : Linear) (r : list R) : list R :=
  (λ j, Radd (dot r (weight l j)) (bias l j)) <$> seq 0 (out_features l).

(** [nn.Linear.forward]; torch refuses an input whose last dimension is
    not [in_features]. *)
Definition Linear_forward (l : Linear) (x : Tensor R) : res (Tensor R) :=
  if decide (ncols x = in_features l)
  then Return (mkTensor (out_features l) (Linear_row l <$> rows x))
  else Raise (RuntimeError "mat1 and mat2 shapes cannot be multiplied").

(** The initial parameter values of the three layers of an [MLP] (torch
    draws them at construction). *)
Record MLPParams : Type := mkMLPParams {
  fc1_weight : nat → nat → R;  fc1_bias : nat → R;
  fc2_weight : nat → nat → R;  fc2_bias : nat → R;
  fc3_weight : nat → nat → R;  fc3_bias : nat → R
}.

Record MLP : Type := mkMLP {
  fc1 : Linear;
  fc2 : Linear;
  fc3 : Linear
}.

(** [MLP.__init__] *)
Definition MLP_init (in_features out_features : nat) (p : MLPParams) : MLP :=
  mkMLP (mkLinear in_features 64 (fc1_weight p) (fc1_bias p))
        (mkLinear 64 64 (fc2_weight p) (fc2_bias p))
        (mkLinear 64 out_features (fc3_weight p) (fc3_bias p)).

(** [MLP.forward] *)
Definition MLP_forward (f : MLP) (x : Tensor R) : res (Tensor R) :=
  x ← relu <$> Linear_forward (fc1 f) x;
  x ← relu <$> Linear_forward (fc2 f) x;
  Linear_forward (fc3 f) x.

(** What [MLP_forward] computes on one row, and the input widths it
    accepts. *)
Definition MLP_row (f : MLP) (r : list R) : list R :=
  Linear_row (fc3 f)
    (Rrelu <$> Linear_row (fc2 f) (Rrelu <$> Linear_row (fc1 f) r)).

Definition MLP_accepts (f : MLP) (width : nat) : Prop :=
  width = in_features (fc1 f)
  ∧ out_features (fc1 f) = in_features (fc2 f)
  ∧ out_features (fc2 f) = in_features (fc3 f).

Global Instance MLP_accepts_dec (f : MLP) (width : nat)
    : Decision (MLP_accepts f width).
Proof. unfold MLP_accepts. apply _. Defined.

(** The error of a refused width. *)
Definition shape_error : exn :=
  RuntimeError "mat1 and mat2 shapes cannot be multiplied".

End Network.
Arguments Linear R : clear implicits.
Arguments MLP R : clear implicits.
Arguments MLPParams R : clear implicits.

(* ===================================================================== *)
(** ** [AtomToFactor] *)
(* ===================================================================== *)

Section AtomToFactor.
Context {R : Type} `{Scalar R}.

Record AtomToFactor : Type := mkAtomToFactor {
  msg_src_name : string;
  msg_dest_name : string;
  current_repr_name : string;
  updated_repr_name : string;
  atom_dim : nat;
  initial_factor_dims : gmap string nat;
  updated_factor_dims : gmap string nat;
  bond_f : MLP R;
  angle_f : MLP R;
  torsion_f : MLP R
}.

(** [d[key]] on a dictionary of dimensions. *)
Definition dims_get (d : gmap string nat) (key : string) : res nat :=
  match d !! key with
  | Some v => Return v
  | None => Raise (KeyError key)
  end.

(** The default arguments [dict(bond=1, angle=1, torsion=1)] and
    [dict(bond=10, angle=10, torsion=10)]. *)
Definition default_initial_factor_dims : gmap string nat :=
  <["bond" := 1]> (<["angle" := 1]> (<["torsion" := 1]> ∅)).

Definition default_updated_factor_dims : gmap string nat :=
  <["bond" := 10]> (<["angle" := 10]> (<["torsion" := 10]> ∅)).

(** [AtomToFactor.__init__]; the parameter values of the three networks
    are given. *)
Definition AtomToFactor_init (msg_src_name msg_dest_name current_repr_name
    updated_repr_name : string) (atom_dim : nat)
    (initial_factor_dims updated_factor_dims : gmap string nat)
    (p_bond p_angle p_torsion : MLPParams R) : res AtomToFactor :=
  (* bonds *)
  i_bond ← dims_get initial_factor_dims "bond";
  let bond_dim := atom_dim * 2 + i_bond in
  u_bond ← dims_get updated_factor_dims "bond";
  let bond_f := MLP_init bond_dim u_bond p_bond in
  (* angles *)
  i_angle ← dims_get initial_factor_dims "angle";
  let angle_dim := atom_dim * 3 + i_angle in
  u_angle ← dims_get updated_factor_dims "angle";
  let angle_f := MLP_init angle_dim u_angle p_angle in
  (* torsions *)
  i_torsion ← dims_get initial_factor_dims "torsion";
  let torsion_dim := atom_dim * 4 + i_torsion in
  u_torsion ← dims_get updated_factor_dims "torsion";
  let torsion_f := MLP_init torsion_dim u_torsion p_torsion in
  Return (mkAtomToFactor msg_src_name msg_dest_name current_repr_name
            updated_repr_name atom_dim initial_factor_dims
            updated_factor_dims bond_f angle_f torsion_f).

(** [f'{self.msg_dest_name}[{i}]'] *)
Definition destination_name (self : AtomToFactor) (i : nat) : string :=
  msg_dest_name self +:+ "[" +:+ pretty i +:+ "]".

(** The messages [fn.copy_u] puts on the edges landing on node [i], in
    edge order, and their [fn.sum]. *)
Definition messages_into (es : list (nat * nat)) (X : Tensor R) (i : nat)
    : list (list R) :=
  (λ e, row X e.1) <$> filter (λ e, e.2 = i) es.

Definition vsum (width : nat) (ms : list (list R)) : list R :=
  foldl vadd (replicate width Rzero) ms.

(** What [fn.copy_u] followed by [fn.sum] leaves on the [N] destination
    nodes: node [i] gets the sum of the source vectors of its in-edges, the
    zero vector when it has none. *)
Definition copy_u_sum (X : Tensor R) (es : list (nat * nat)) (N : nat)
    : Tensor R :=
  mkTensor (ncols X)
    ((λ i, vsum (ncols X) (messages_into es X i)) <$> seq 0 N).

(** [g[edge_type].pull(v, fn.copy_u(src, dest), fn.sum(dest, dest))] for
    [v = np.arange(N)], all the nodes of the destination type.  DGL does
    nothing for an empty [v]; otherwise the result of the message passing
    is written under [dest] on the destination nodes. *)
Definition pull_copy_u_sum (g : DGLHeteroGraph R) (edge_type : etype)
    (N : nat) (src dest : string) : res (DGLHeteroGraph R) :=
  match edges g !! edge_type with
  | None => Raise (DGLError "edge type does not exist")
  | Some es =>
      if decide (N = 0) then Return g
      else
        X ← get_ndata g edge_type.1.1 src;
        set_ndata g edge_type.2 dest (copy_u_sum X es N)
  end.

(** The body shared by [_pass_labeled_messages_from_atom_to_bond],
    [..._to_angle] and [..._to_torsion]. *)
Definition pass_labeled_messages (factor : string) (arity : nat)
    (self : AtomToFactor) (g : DGLHeteroGraph R) : res (DGLHeteroGraph R) :=
  N ← number_of_nodes g factor;
  for_each (λ g i,
      let edge_type := ("atom", in_label i, factor) in
      let destination := destination_name self i in
      pull_copy_u_sum g edge_type N (msg_src_name self) destination)
    g (seq 0 arity).

Definition _pass_labeled_messages_from_atom_to_bond :=
  pass_labeled_messages "bond" 2.

Definition _pass_labeled_messages_from_atom_to_angle :=
  pass_labeled_messages "angle" 3.

Definition _pass_labeled_messages_from_atom_to_torsion :=
  pass_labeled_messages "torsion" 4.

(** The body shared by [_compute_updated_bond_representation],
    [..._angle_...] and [..._torsion_...]; [f] is the network of the factor
    type. *)
Definition compute_updated_representation (factor : string) (arity : nat)
    (f : AtomToFactor → MLP R) (self : AtomToFactor) (g : DGLHeteroGraph R)
    : res (DGLHeteroGraph R) :=
  current_repr ← get_ndata g factor (current_repr_name self);
  incoming_messages ←
    mapM (λ i, get_ndata g factor (destination_name self i)) (seq 0 arity);
  X_f ← torch_cat (incoming_messages ++ [current_repr]);
  X_r ← torch_cat (reverse incoming_messages ++ [current_repr]);
  y_f ← MLP_forward (f self) X_f;
  y_r ← MLP_forward (f self) X_r;
  updated ← tensor_add y_f y_r;
  set_ndata g factor (updated_repr_name self) updated.

Definition _compute_updated_bond_representation :=
  compute_updated_representation "bond" 2 bond_f.

Definition _compute_updated_angle_representation :=
  compute_updated_representation "angle" 3 angle_f.

Definition _compute_updated_torsion_representation :=
  compute_updated_representation "torsion" 4 torsion_f.

(** [AtomToFactor.forward] *)
Definition forward (self : AtomToFactor) (g : DGLHeteroGraph R)
    : res (DGLHeteroGraph R) :=
  g ← _pass_labeled_messages_from_atom_to_bond self g;
  g ← _compute_updated_bond_representation self g;
  g ← _pass_labeled_messages_from_atom_to_angle self g;
  g ← _compute_updated_angle_representation self g;
  g ← _pass_labeled_messages_from_atom_to_torsion self g;
  _compute_updated_torsion_representation self g.

(** The gather step, the update step and the network of a factor type. *)
Definition gather (f : factor_type) :=
  match f with
  | bond => _pass_labeled_messages_from_atom_to_bond
  | angle => _pass_labeled_messages_from_atom_to_angle
  | torsion => _pass_labeled_messages_from_atom_to_torsion
  end.

Definition update (f : factor_type) :=
  match f with
  | bond => _compute_updated_bond_representation
  | angle => _compute_updated_angle_representation
  | torsion => _compute_updated_torsion_representation
  end.

Definition network (f : factor_type) : AtomToFactor → MLP R :=
  match f with bond => bond_f | angle => angle_f | torsion => torsion_f end.

(** The update as the specification words it: with [X_forward] the slot
    vectors in slot order followed by [r], and [X_reverse] the slot vectors
    in reversed order followed by [r], the new representation is
    [F(X_forward) + F(X_reverse)]. *)
Definition symmetrized (F : MLP R) (slots : list (Tensor R))
    (r : Tensor R) : res (Tensor R) :=
  X_forward ← torch_cat (slots ++ [r]);
  X_reverse ← torch_cat (reverse slots ++ [r]);
  y_forward ← MLP_forward F X_forward;
  y_reverse ← MLP_forward F X_reverse;
  tensor_add y_forward y_reverse.

(** The gathered slot tensors of a factor type, read off the graph. *)
Definition read_slots (f : factor_type) (self : AtomToFactor)
    (g : DGLHeteroGraph R) : res (list (Tensor R)) :=
  mapM (λ i, get_ndata g (factor_name f) (destination_name self i))
    (seq 0 (arity f)).

(** The feature-table keys one layer writes for a factor type: the slot
    buffers and the updated representation. *)
Definition scratch_keys (self : AtomToFactor) (f : factor_type)
    : list (string * string) :=
  (λ k, (factor_name f, destination_name self k)) <$> seq 0 (arity f).


(** DGL's invariant on feature tables: one row per node of the type. *)
Definition features_consistent (g : DGLHeteroGraph R) : Prop :=
  map_Forall (λ key t, num_nodes g !! key.1 = Some (nrows t)) (ndata g).

Global Instance features_consistent_dec (g : DGLHeteroGraph R)
    : Decision (features_consistent g).
Proof. unfold features_consistent. apply _. Defined.

End AtomToFactor.
Arguments AtomToFactor R : clear implicits.

(* ===================================================================== *)
(** ** [qcarchive_utils.get_graph] *)
(* ===================================================================== *)

(** The archive client, the chemistry toolkit, [esp.Graph] and the unit
    conversions are collaborators outside the file: they are the variables
    of this section, each of them free to raise.  What [get_graph] itself
    does with their outcomes is modelled in full. *)
Section QCArchive.
Context {Collection RecordT Entry Mol Snapshot Array Feature Graph : Type}.

(** [collection.get_record(record_name, specification="default")] *)
Variable get_record : Collection → string → res RecordT.
(** [collection.get_entry(record_name)] *)
Variable get_entry : Collection → string → res Entry.
(** [Molecule.from_qcschema(entry)] *)
Variable from_qcschema : Entry → res Mol.
(** [record.get_trajectory()]: a list of snapshots, or [None]. *)
Variable get_trajectory : RecordT → res (option (list Snapshot)).
(** [esp.Graph(mol)] *)
Variable esp_Graph : Mol → res Graph.
(** [g.nodes[ntype].data[name] = val] *)
Variable graph_set_data : Graph → string → string → Feature → res Graph.

(** The converted total energy, geometry and gradient of a snapshot. *)
Variable scf_total_energy : Snapshot → res Array.
Variable geometry : Snapshot → res Array.
Variable return_result : Snapshot → res Array.
Variable shape : Array → list nat.

(** [torch.tensor([...])[None, :]], [torch.tensor(stacked, ...)] and the
    tensor [torch.stack] builds. *)
Variable energy_tensor : list Array → Feature.
Variable stacked_tensor : list Array → Feature.

(** [np.stack(arrays, axis=1)]: numpy raises [ValueError] on an empty
    sequence and on arrays of different shapes. *)
Definition np_stack (arrays : list Array) : res (list Array) :=
  match arrays with
  | [] => Raise (ValueError "need at least one array to stack")
  | a :: _ =>
      if decide (Forall (λ b, shape b = shape a) arrays)
      then Return arrays
      else Raise (ValueError "all input arrays must have the same shape")
  end.

(** [torch.stack(tensors, dim=1)]: the same two conditions, as a
    [RuntimeError]. *)
Definition torch_stack (tensors : list Array) : res (list Array) :=
  match tensors with
  | [] => Raise (RuntimeError "stack expects a non-empty TensorList")
  | a :: _ =>
      if decide (Forall (λ b, shape b = shape a) tensors)
      then Return tensors
      else Raise (RuntimeError "stack expects each tensor to be equal size")
  end.

(** [try: trajectory = record.get_trajectory() / except: return None],
    followed by [if trajectory is None: return None]: the trajectory to
    use, or [None] for the early return. *)
Definition usable_trajectory (record : RecordT) : option (list Snapshot) :=
  match get_trajectory record with
  | Raise _ => None
  | Return None => None
  | Return (Some trajectory) => Some trajectory
  end.

Definition get_graph (collection : Collection) (record_name : string)
    : res (option Graph) :=
  (* get record and trajectory *)
  record ← get_record collection record_name;
  entry ← get_entry collection record_name;
  mol ← from_qcschema entry;
  match usable_trajectory record with
  | None => Return None
  | Some trajectory =>
      g ← esp_Graph mol;
      energies ← mapM scf_total_energy trajectory;
      g ← graph_set_data g "g" "u_ref" (energy_tensor energies);
      geometries ← mapM geometry trajectory;
      stacked ← np_stack geometries;
      g ← graph_set_data g "n1" "xyz" (stacked_tensor stacked);
      gradients ← mapM return_result trajectory;
      stacked ← torch_stack gradients;
      g ← graph_set_data g "n1" "u_ref_prime" (stacked_tensor stacked);
      Return (Some g)
  end.

End QCArchive.

(* ===================================================================== *)
(** ** Vocabulary of the statements *)
(* ===================================================================== *)

(** The edge lists the builder is expected to produce for slot [k]: one
    edge per tuple, in tuple order. *)
Definition forward_edges {T} (get : T → nat → nat) (tuples : list T)
    (k : nat) : list (nat * nat) :=
  imap (λ i t, (get t k, i)) tuples.

Definition reverse_edges {T} (get : T → nat → nat) (tuples : list T)
    (k : nat) : list (nat * nat) :=
  imap (λ i t, (i, get t k)) tuples.

(** The inner and the outer loop of [form_dict_ordered], named for the
    proofs. *)
Definition append_slot {T} (get : T → nat → nat) (factor : string)
    (atom : nat) (d : edge_dict) (its : list (nat * T)) : edge_dict :=
  foldl (λ d (it : nat * T),
      dict_append (reverse_etype factor) (it.1, get it.2 atom)
        (dict_append (forward_etype factor atom) (get it.2 atom, it.1) d))
    d its.

Definition append_slots {T} (get : T → nat → nat) (factor : string)
    (tuples : list T) (d : edge_dict) (ks : list nat) : edge_dict :=
  foldl (λ d atom, append_slot get factor atom d (imap pair tuples)) d ks.

(** The number of tuples of a factor type in the molecule. *)
Definition factor_count (offmol : Molecule) (f : factor_type) : nat :=
  match f with
  | bond => length (bonds offmol)
  | angle => length (angles offmol)
  | torsion => length (propers offmol)
  end.

(** The atom index in slot [k] of tuple [i] of a factor type. *)
Definition slot_atom (offmol : Molecule) (f : factor_type) (i k : nat)
    : option nat :=
  match f with
  | bond => (λ t, pair_get t k) <$> bond_tuples offmol !! i
  | angle => (λ t, triple_get t k) <$> angle_tuples offmol !! i
  | torsion => (λ t, quad_get t k) <$> torsion_tuples offmol !! i
  end.

Definition factor_forward_edges (offmol : Molecule) (f : factor_type)
    (k : nat) : list (nat * nat) :=
  match f with
  | bond => forward_edges pair_get (bond_tuples offmol) k
  | angle => forward_edges triple_get (angle_tuples offmol) k
  | torsion => forward_edges quad_get (torsion_tuples offmol) k
  end.

Definition factor_reverse_edges (offmol : Molecule) (f : factor_type)
    : list (nat * nat) :=
  match f with
  | bond => seq 0 2 ≫= reverse_edges pair_get (bond_tuples offmol)
  | angle => seq 0 3 ≫= reverse_edges triple_get (angle_tuples offmol)
  | torsion => seq 0 4 ≫= reverse_edges quad_get (torsion_tuples offmol)
  end.

(** Every atom index a structural tuple of the molecule mentions. *)
Definition referenced_atom_indices (offmol : Molecule) : list nat :=
  (bond_tuples offmol ≫= λ t, pair_get t <$> seq 0 2)
  ++ (angle_tuples offmol ≫= λ t, triple_get t <$> seq 0 3)
  ++ (torsion_tuples offmol ≫= λ t, quad_get t <$> seq 0 4).

Definition factor_dict (offmol : Molecule) (f : factor_type) : edge_dict :=
  match f with
  | bond => form_bond_dict_ordered offmol
  | angle => form_angle_dict_ordered offmol
  | torsion => form_torsion_dict_ordered offmol
  end.

(** The feature table [offmol_to_heterograph] leaves on the graph. *)
Definition initial_ndata {R : Type} `{Scalar R} (offmol : Molecule)
    : gmap (string * string) (Tensor R) :=
  <[("torsion", "initial_representation") :=
      torch_zeros (factor_count offmol torsion) 1]>
  (<[("angle", "initial_representation") :=
      torch_zeros (factor_count offmol angle) 1]>
  (<[("bond", "initial_representation") :=
      torch_zeros (factor_count offmol bond) 1]>
  (<[("atom", "element") :=
      one_hot_elements (atomic_number <$> atoms offmol)]> ∅))).

(** The topology has consistent atom indices when the largest index a
    tuple mentions is the last atom. *)
Definition atom_indices_consistent (offmol : Molecule) : Prop :=
  max_list_with S (referenced_atom_indices offmol) = length (atoms offmol).

(** The row [one_hot_elements] is expected to give an atomic number: the
    indicator of each member of the vocabulary, in the iteration order
    [8, 1, 6, 7] of the set. *)
Definition element_row {R : Type} `{Scalar R} (z : Z) : list R :=
  [float_of_bool (bool_decide (z = 8%Z));
   float_of_bool (bool_decide (z = 1%Z));
   float_of_bool (bool_decide (z = 6%Z));
   float_of_bool (bool_decide (z = 7%Z))].

(** What a step of [forward] on factor type [f] may change: features of
    the nodes of that type. *)
Definition step_frame {R : Type} (f : factor_type)
    (g g' : DGLHeteroGraph R) : Prop :=
  num_nodes g' = num_nodes g
  ∧ edges g' = edges g
  ∧ ∀ key, key.1 ≠ factor_name f → ndata g' !! key = ndata g !! key.

(** The updated representation a computation leaves on the graph. *)
Definition updated_repr {R : Type} `{Scalar R} (f : factor_type)
    (self : AtomToFactor R) (c : res (DGLHeteroGraph R)) : res (Tensor R) :=
  g' ← c; get_ndata g' (factor_name f) (updated_repr_name self).



(** The graph a computation returns (the given graph if it raises). *)
Definition returned {R : Type} (dflt : DGLHeteroGraph R)
    (c : res (DGLHeteroGraph R)) : DGLHeteroGraph R :=
  match c with Return g => g | Raise _ => dflt end.

(* ===================================================================== *)
(** ** Concrete inputs *)
(* ===================================================================== *)

Definition carbon (i : nat) : Atom := mkAtom 6 i.

(** A six-carbon ring: six atoms, six bonds, six angles, six torsions. *)
Definition ring : Molecule :=
  let c := carbon in
  mkMolecule
    [c 0; c 1; c 2; c 3; c 4; c 5]
    [mkBond (c 0) (c 1); mkBond (c 1) (c 2); mkBond (c 2) (c 3);
     mkBond (c 3) (c 4); mkBond (c 4) (c 5); mkBond (c 5) (c 0)]
    [(c 0, c 1, c 2); (c 1, c 2, c 3); (c 2, c 3, c 4);
     (c 3, c 4, c 5); (c 4, c 5, c 0); (c 5, c 0, c 1)]
    [(c 0, c 1, c 2, c 3); (c 1, c 2, c 3, c 4); (c 2, c 3, c 4, c 5);
     (c 3, c 4, c 5, c 0); (c 4, c 5, c 0, c 1); (c 5, c 0, c 1, c 2)].

Definition ring_graph : DGLHeteroGraph Z :=
  mkGraph (num_nodes (dgl_heterograph (R := Z) (data_dict_of ring)))
    (data_dict_of ring) (initial_ndata ring).

(** Two atoms and one bond whose second end is atom index 5. *)
Definition dangling : Molecule :=
  mkMolecule [carbon 0; carbon 1] [mkBond (carbon 0) (carbon 5)] [] [].

(** A four-atom chain O-C-N-C and the same chain with every tuple written
    in the opposite direction. *)
Definition chain_atoms : list Atom :=
  [mkAtom 8 0; mkAtom 6 1; mkAtom 7 2; mkAtom 6 3].

Definition chain_atom (i : nat) : Atom := default (carbon i) (chain_atoms !! i).

Definition chain : Molecule :=
  let a := chain_atom in
  mkMolecule chain_atoms
    [mkBond (a 0) (a 1); mkBond (a 1) (a 2); mkBond (a 2) (a 3)]
    [(a 0, a 1, a 2); (a 1, a 2, a 3)]
    [(a 0, a 1, a 2, a 3)].

Definition chain_reversed : Molecule :=
  let a := chain_atom in
  mkMolecule chain_atoms
    [mkBond (a 1) (a 0); mkBond (a 2) (a 1); mkBond (a 3) (a 2)]
    [(a 2, a 1, a 0); (a 3, a 2, a 1)]
    [(a 3, a 2, a 1, a 0)].


Definition chain_graph : DGLHeteroGraph Z :=
  returned ring_graph (offmol_to_heterograph chain).

(** Some parameter values for a network over the integers. *)
Definition example_params : MLPParams Z :=
  mkMLPParams
    (λ j i, Z.of_nat (j + i) - 3)%Z (λ j, 1%Z)
    (λ j i, if decide (j = i) then 1%Z else 0%Z) (λ _, 0%Z)
    (λ j i, if decide (i < 3) then Z.of_nat (j + 1) else 0%Z) (λ _, 0%Z).

(** The transform of the module's [__main__] block:
    [AtomToFactor('element', 'element', 'initial_representation',
    'round1_representation', atom_dim=ATOM_DIM)]. *)
Definition factor_net : AtomToFactor Z :=
  mkAtomToFactor "element" "element" "initial_representation"
    "round1_representation" ATOM_DIM
    default_initial_factor_dims default_updated_factor_dims
    (MLP_init 9 10 example_params) (MLP_init 13 10 example_params)
    (MLP_init 17 10 example_params).

(** A transform whose destination key is the name of its first slot
    buffer. *)
Definition clashing_net : AtomToFactor Z :=
  mkAtomToFactor "element" "m" "initial_representation" "m[0]" ATOM_DIM
    default_initial_factor_dims default_updated_factor_dims
    (MLP_init 9 10 example_params) (MLP_init 13 10 example_params)
    (MLP_init 17 10 example_params).

(** A transform built for atom dimension 4 and current dimension 1, and a
    graph on the chain whose atoms carry a width-3 attribute ["x"] and
    whose bonds carry a width-3 current representation ["h"]. *)
Definition narrow_net : res (AtomToFactor Z) :=
  AtomToFactor_init "x" "m" "h" "out" 4
    default_initial_factor_dims default_updated_factor_dims
    example_params example_params example_params.

Definition narrow_graph : DGLHeteroGraph Z :=
  mkGraph (num_nodes (dgl_heterograph (R := Z) (data_dict_of chain)))
    (data_dict_of chain)
    (<[("atom", "x") := mkTensor 3 [[1; 2; 3]; [4; 5; 6]; [7; 8; 9];
                                    [1; 0; 1]]%Z]>
     (<[("bond", "h") := mkTensor 3 [[1; 1; 1]; [2; 2; 2]; [3; 3; 3]]%Z]>
        ∅)).


(** The graph of a molecule after the gather step of a factor type. *)
Definition gathered_graph (f : factor_type) (offmol : Molecule)
    : DGLHeteroGraph Z :=
  returned ring_graph
    (g ← offmol_to_heterograph offmol; gather f factor_net g).

Definition chain_updated : DGLHeteroGraph Z :=
  returned ring_graph (forward factor_net chain_graph).


(** An archive in which every call succeeds and every record has the
    trajectory [traj]: records, entries, molecules and arrays are trivial,
    a snapshot is a number, a graph is the list of the label names written
    onto it. *)
Definition fetch_with_trajectory (traj : option (list nat))
    : res (option (list string)) :=
  get_graph (Collection := unit) (RecordT := unit) (Entry := unit)
    (Mol := unit) (Snapshot := nat) (Array := nat) (Feature := list nat)
    (λ _ _, Return tt) (λ _ _, Return tt) (λ _, Return tt)
    (λ _, Return traj) (λ _, Return [])
    (λ g _ name _, Return (g ++ [name]))
    (λ s, Return s) (λ s, Return s) (λ s, Return s)
    (λ _, [3]) (λ l, l) (λ l, l)
    tt "record".

(* ===================================================================== *)
(** ** [qcarchive_utils.get_energy_and_gradient] *)
(* ===================================================================== *)

Section EnergyAndGradient.
Context {R : Type}.

(** The QC variables of a result record as the function reads them: the
    numbers (['CURRENT ENERGY']) and the flat arrays
    (['CURRENT GRADIENT']), each by name. *)
Record QCVars : Type := mkQCVars {
  qc_numbers : gmap string R;
  qc_arrays : gmap string (list R)
}.

(** [d[key]] on a dictionary with string keys. *)
Definition dict_getitem {V} (d : gmap string V) (key : string) : res V :=
  match d !! key with
  | Some v => Return v
  | None => Raise (KeyError key)
  end.

(** [flat.reshape((n, m))]: numpy refuses a shape of another size. *)
Definition np_reshape (flat : list R) (n m : nat) : res (Tensor R) :=
  if decide (n * m = length flat)
  then Return (mkTensor m (reshape (replicate n m) flat))
  else Raise (ValueError "cannot reshape array into shape").

(** [get_energy_and_gradient(snapshot)], on [d = snapshot.dict()]. *)
Definition get_energy_and_gradient (d : gmap string (gmap string QCVars))
    : res (R * Tensor R) :=
  extras ← dict_getitem d "extras";
  qcvars ← dict_getitem extras "qcvars";
  energy ← dict_getitem (qc_numbers qcvars) "CURRENT ENERGY";
  flat_gradient ← dict_getitem (qc_arrays qcvars) "CURRENT GRADIENT";
  let num_atoms := length flat_gradient `div` 3 in
  gradient ← np_reshape flat_gradient num_atoms 3;
  Return (energy, gradient).

End EnergyAndGradient.
Arguments QCVars R : clear implicits.

(** The result dictionary holding an energy and a flat gradient. *)
Definition result_dict {R : Type} (energy : R) (flat_gradient : list R)
    : gmap string (gmap string (QCVars R)) :=
  {[ "extras" :=
       {[ "qcvars" :=
            mkQCVars {[ "CURRENT ENERGY" := energy ]}
                     {[ "CURRENT GRADIENT" := flat_gradient ]} ]} ]}.

(* ===================================================================== *)
(** ** Vocabulary of the end-to-end statements *)
(* ===================================================================== *)

(** The last character of a string. *)
Fixpoint last_char (s : string) : option Ascii.ascii :=
  match s with
  | EmptyString => None
  | String c s' =>
      match s' with
      | EmptyString => Some c
      | String _ _ => last_char s'
      end
  end.

Section EndToEnd.
Context {R : Type} `{Scalar R}.

(** The element row of the atom in slot [k] of instance [i] of a factor
    type (the zero row for an index that names no atom). *)
Definition slot_element (offmol : Molecule) (f : factor_type) (i k : nat)
    : list R :=
  from_option (λ a, element_row (atomic_number a)) (replicate 4 Rzero)
    (slot_atom offmol f i k ≫= λ u, atoms offmol !! u).

(** The input row of the network for instance [i]: the element rows of
    its slots in the given order, then the initial representation [0]. *)
Definition instance_input (offmol : Molecule) (f : factor_type) (i : nat)
    (order : list nat) : list R :=
  (order ≫= slot_element offmol f i) ++ [Rzero].

(** The representation one layer is expected to give instance [i]. *)
Definition expected_update (self : AtomToFactor R) (offmol : Molecule)
    (f : factor_type) (i : nat) : list R :=
  vadd
    (MLP_row (network f self)
       (instance_input offmol f i (seq 0 (arity f))))
    (MLP_row (network f self)
       (instance_input offmol f i (reverse (seq 0 (arity f))))).

(** A transform that reads the element rows and the initial
    representation the constructor leaves, with networks built for them
    (atom dimension 4, current dimension 1). *)
Definition reads_initial_features (self : AtomToFactor R) : Prop :=
  msg_src_name self = "element"
  ∧ current_repr_name self = "initial_representation"
  ∧ ∀ f, MLP_accepts (network f self) (4 * arity f + 1).

(** A graph is ready for the layer step of a factor type of a molecule
    when it has the factor's nodes and slot relations as constructed, the
    element rows on the atoms and the initial representation on the
    factor's nodes. *)
Definition ready (offmol : Molecule) (f : factor_type)
    (g : DGLHeteroGraph R) : Prop :=
  num_nodes g !! factor_name f = Some (factor_count offmol f)
  ∧ (∀ k, k < arity f →
       edges g !! ("atom", in_label k, factor_name f)
         = Some (factor_forward_edges offmol f k))
  ∧ ndata g !! ("atom", "element")
      = Some (one_hot_elements (atomic_number <$> atoms offmol))
  ∧ ndata g !! (factor_name f, "initial_representation")
      = Some (torch_zeros (factor_count offmol f) 1).

End EndToEnd.

(** The molecule with every bond, angle and torsion written in the
    opposite direction. *)
Definition reverse_tuples (offmol : Molecule) : Molecule :=
  mkMolecule (atoms offmol)
    ((λ b, mkBond (atom2 b) (atom1 b)) <$> bonds offmol)
    ((λ '(a, b, c), (c, b, a)) <$> angles offmol)
    ((λ '(a, b, c, d), (d, c, b, a)) <$> propers offmol).
(* ===================================================================== *)
(** ** Names *)
(* ===================================================================== *)

Lemma string_length_app (s t : string) :
  String.length (s +:+ t) = String.length s + String.length t.
Proof.
  induction s as [|c s IH]; [done|].
  change (String c s +:+ t) with (String c (s +:+ t)). simpl. by rewrite IH.
Qed.

Lemma string_app_inj_r (s1 s2 t : string) : s1 +:+ t = s2 +:+ t → s1 = s2.
Proof.
  revert s2. induction s1 as [|c s1 IH]; intros [|c' s2] Heq.
  - done.
  - apply (f_equal String.length) in Heq.
    rewrite !string_length_app in Heq. simpl in Heq. lia.
  - apply (f_equal String.length) in Heq.
    rewrite !string_length_app in Heq. simpl in Heq. lia.
  - change (String c (s1 +:+ t) = String c' (s2 +:+ t)) in Heq.
    injection Heq as -> Heq. f_equal. by apply IH.
Qed.

Lemma in_label_inj (j k : nat) : in_label j = in_label k → j = k.
Proof.
  unfold in_label. intros Heq.
  apply (inj (String.app "in[")) in Heq.
  apply string_app_inj_r in Heq. by apply (inj pretty) in Heq.
Qed.

Lemma forward_etype_inj factor (j k : nat) :
  forward_etype factor j = forward_etype factor k → j = k.
Proof. unfold forward_etype. intros Heq. apply in_label_inj. congruence. Qed.

Lemma in_label_not_contains (k : nat) : in_label k ≠ "contains".
Proof. unfold in_label. discriminate. Qed.

(* ===================================================================== *)
(** ** The edge dictionaries *)
(* ===================================================================== *)

Section form_dict.
Context {T : Type} (get : T → nat → nat) (factor : string).

Lemma forward_reverse_ne k : forward_etype factor k ≠ reverse_etype factor.
Proof.
  unfold forward_etype, reverse_etype. intros Heq.
  apply (in_label_not_contains k). congruence.
Qed.

Lemma inner_lookup atom d its key :
  append_slot get factor atom d its !! key =
    if decide (key = forward_etype factor atom)
    then (λ l, l ++ ((λ it : nat * T, (get it.2 atom, it.1)) <$> its))
           <$> d !! key
    else if decide (key = reverse_etype factor)
    then (λ l, l ++ ((λ it : nat * T, (it.1, get it.2 atom)) <$> its))
           <$> d !! key
    else d !! key.
Proof.
  revert d. induction its as [|it its IH]; intros d; simpl.
  - repeat case_decide; try done; destruct (d !! key); simpl;
      by rewrite ?app_nil_r.
  - rewrite IH. unfold dict_append.
    pose proof (forward_reverse_ne atom) as Hne.
    repeat case_decide; subst.
    + rewrite lookup_alter_ne by done. rewrite lookup_alter_eq.
      destruct (d !! forward_etype factor atom); simpl; [|done].
      by rewrite <-app_assoc.
    + rewrite lookup_alter_eq.
      rewrite lookup_alter_ne by done.
      destruct (d !! reverse_etype factor); simpl; [|done].
      by rewrite <-app_assoc.
    + by rewrite !lookup_alter_ne by done.
Qed.

Let outer (tuples : list T) (d : edge_dict) (ks : list nat) : edge_dict :=
  foldl (λ d atom, append_slot get factor atom d (imap pair tuples)) d ks.

Lemma outer_lookup_forward tuples d ks k :
  NoDup ks →
  append_slots get factor tuples d ks !! forward_etype factor k =
    if decide (k ∈ ks)
    then (λ l, l ++ forward_edges get tuples k) <$> d !! forward_etype factor k
    else d !! forward_etype factor k.
Proof.
  revert d. induction ks as [|a ks IH]; intros d Hnd.
  - rewrite decide_False by set_solver. done.
  - change (append_slots get factor tuples d (a :: ks))
      with (append_slots get factor tuples (append_slot get factor a d (imap pair tuples)) ks).
    apply NoDup_cons in Hnd as [Ha Hnd]. rewrite IH by done.
    rewrite inner_lookup.
    destruct (decide (k = a)) as [->|Hka].
    + rewrite (decide_True (P := forward_etype factor a = _)) by done.
      rewrite (decide_False (P := a ∈ ks)) by done.
      rewrite (decide_True (P := a ∈ a :: ks)) by set_solver.
      unfold forward_edges. by rewrite fmap_imap.
    + rewrite (decide_False (P := forward_etype factor k = forward_etype _ _));
        last first.
      { intros Heq. by apply forward_etype_inj in Heq. }
      rewrite (decide_False (P := forward_etype factor k = reverse_etype _))
        by apply forward_reverse_ne.
      destruct (decide (k ∈ ks)).
      * rewrite decide_True by (apply elem_of_cons; by right). done.
      * rewrite decide_False; [done|].
        by intros [?|?]%elem_of_cons.
Qed.

Lemma outer_lookup_reverse tuples d ks :
  append_slots get factor tuples d ks !! reverse_etype factor =
    (λ l, l ++ (ks ≫= reverse_edges get tuples)) <$> d !! reverse_etype factor.
Proof.
  revert d. induction ks as [|a ks IH]; intros d; simpl.
  - destruct (d !! _); simpl; by rewrite ?app_nil_r.
  - rewrite IH, inner_lookup.
    rewrite decide_False by (intros Heq; by eapply forward_reverse_ne).
    rewrite decide_True by done.
    destruct (d !! _); simpl; [|done].
    rewrite <-app_assoc. unfold reverse_edges at 2. by rewrite fmap_imap.
Qed.

Lemma outer_lookup_other tuples d ks key :
  (∀ k, k ∈ ks → key ≠ forward_etype factor k) →
  key ≠ reverse_etype factor →
  append_slots get factor tuples d ks !! key = d !! key.
Proof.
  revert d. induction ks as [|a ks IH]; intros d Hf Hr; simpl; [done|].
  rewrite IH by set_solver. rewrite inner_lookup.
  rewrite decide_False by (apply Hf; set_solver).
  by rewrite decide_False.
Qed.

Lemma init_lookup_in (ks : list nat) (d : edge_dict) k :
  k ∈ ks →
  foldl (λ d atom, <[forward_etype factor atom := []]> d) d ks
    !! forward_etype factor k = Some [].
Proof.
  revert d. induction ks as [|a ks IH] using rev_ind; intros d Hk.
  - by apply elem_of_nil in Hk.
  - rewrite foldl_snoc. apply elem_of_app in Hk as [Hk|Hk].
    + destruct (decide (a = k)) as [->|Hne]; [by rewrite lookup_insert_eq|].
      rewrite lookup_insert_ne; [by apply IH|].
      intros Heq. by apply forward_etype_inj in Heq.
    + apply list_elem_of_singleton in Hk as ->. by rewrite lookup_insert_eq.
Qed.

Lemma init_lookup_notin (ks : list nat) (d : edge_dict) key :
  (∀ k, k ∈ ks → key ≠ forward_etype factor k) →
  foldl (λ d atom, <[forward_etype factor atom := []]> d) d ks !! key
    = d !! key.
Proof.
  revert d. induction ks as [|a ks IH]; intros d Hk; [done|].
  cbn [foldl]. rewrite IH.
  - rewrite lookup_insert_ne; [done|]. apply not_eq_sym, Hk, elem_of_cons.
    by left.
  - intros k Hin. apply Hk, elem_of_cons. by right.
Qed.

Lemma form_dict_ordered_forward arity tuples k :
  k < arity →
  form_dict_ordered get factor arity tuples !! forward_etype factor k
    = Some (forward_edges get tuples k).
Proof.
  intros Hk. unfold form_dict_ordered.
  change (append_slots get factor tuples
    (<[reverse_etype factor := []]>
       (foldl (λ d atom, <[forward_etype factor atom := []]> d)
          (∅ : edge_dict) (seq 0 arity)))
    (seq 0 arity) !! forward_etype factor k = Some (forward_edges get tuples k)).
  rewrite outer_lookup_forward by apply NoDup_seq.
  rewrite decide_True by (apply elem_of_seq; lia).
  rewrite lookup_insert_ne by (apply not_eq_sym, forward_reverse_ne).
  rewrite init_lookup_in by (apply elem_of_seq; lia). done.
Qed.

Lemma form_dict_ordered_reverse arity tuples :
  form_dict_ordered get factor arity tuples !! reverse_etype factor
    = Some (seq 0 arity ≫= reverse_edges get tuples).
Proof.
  unfold form_dict_ordered.
  change (append_slots get factor tuples
    (<[reverse_etype factor := []]>
       (foldl (λ d atom, <[forward_etype factor atom := []]> d)
          (∅ : edge_dict) (seq 0 arity)))
    (seq 0 arity) !! reverse_etype factor = Some (seq 0 arity ≫= reverse_edges get tuples)).
  rewrite outer_lookup_reverse. by rewrite lookup_insert_eq.
Qed.

Lemma form_dict_ordered_other arity tuples key :
  (∀ k, k < arity → key ≠ forward_etype factor k) →
  key ≠ reverse_etype factor →
  form_dict_ordered get factor arity tuples !! key = None.
Proof.
  intros Hf Hr. unfold form_dict_ordered.
  change (append_slots get factor tuples
    (<[reverse_etype factor := []]>
       (foldl (λ d atom, <[forward_etype factor atom := []]> d)
          (∅ : edge_dict) (seq 0 arity)))
    (seq 0 arity) !! key = None).
  rewrite outer_lookup_other; [| |done].
  - rewrite lookup_insert_ne by done. rewrite init_lookup_notin; [done|].
    intros k Hk%elem_of_seq. apply Hf. lia.
  - intros k Hk%elem_of_seq. apply Hf. lia.
Qed.

End form_dict.

(* ===================================================================== *)
(** ** The data dictionary of a molecule *)
(* ===================================================================== *)

Lemma factor_name_inj f f' : factor_name f = factor_name f' → f = f'.
Proof. by destruct f, f'. Qed.

Lemma factor_name_not_atom f : factor_name f ≠ "atom".
Proof. by destruct f. Qed.

Lemma factor_dict_forward offmol f k :
  k < arity f →
  factor_dict offmol f !! forward_etype (factor_name f) k
    = Some (factor_forward_edges offmol f k).
Proof. destruct f; apply form_dict_ordered_forward. Qed.

Lemma factor_dict_reverse offmol f :
  factor_dict offmol f !! reverse_etype (factor_name f)
    = Some (factor_reverse_edges offmol f).
Proof. destruct f; apply form_dict_ordered_reverse. Qed.

Lemma factor_dict_other offmol f key :
  (∀ k, k < arity f → key ≠ forward_etype (factor_name f) k) →
  key ≠ reverse_etype (factor_name f) →
  factor_dict offmol f !! key = None.
Proof. destruct f; apply form_dict_ordered_other. Qed.

Lemma factor_dict_inv offmol f key es :
  factor_dict offmol f !! key = Some es →
  (∃ k, k < arity f ∧ key = forward_etype (factor_name f) k
        ∧ es = factor_forward_edges offmol f k)
  ∨ (key = reverse_etype (factor_name f)
     ∧ es = factor_reverse_edges offmol f).
Proof.
  intros Hlk.
  destruct (decide (key = reverse_etype (factor_name f))) as [->|Hr].
  { right. rewrite factor_dict_reverse in Hlk. by injection Hlk as <-. }
  destruct (decide (key ∈ forward_etype (factor_name f) <$> seq 0 (arity f)))
    as [Hin|Hnin].
  - apply list_elem_of_fmap in Hin as (k & -> & Hk%elem_of_seq).
    left. exists k. rewrite factor_dict_forward in Hlk by lia.
    injection Hlk as <-. split; [lia|done].
  - rewrite factor_dict_other in Hlk; [done| |done].
    intros k Hk ->. apply Hnin, list_elem_of_fmap. exists k.
    split; [done|]. apply elem_of_seq. lia.
Qed.

Lemma factor_dict_disjoint offmol f f' key es es' :
  factor_dict offmol f !! key = Some es →
  factor_dict offmol f' !! key = Some es' →
  f = f'.
Proof.
  intros [(k & _ & -> & _)|[-> _]]%factor_dict_inv
         [(k' & _ & Heq & _)|[Heq _]]%factor_dict_inv;
    unfold forward_etype, reverse_etype in Heq;
    pose proof in_label_not_contains;
    first [apply factor_name_inj; congruence | exfalso; naive_solver].
Qed.

Lemma data_dict_of_lookup offmol key es :
  data_dict_of offmol !! key = Some es ↔
  ∃ f, factor_dict offmol f !! key = Some es.
Proof.
  unfold data_dict_of, dict_update. rewrite (right_id_L ∅ (∪)).
  change (form_torsion_dict_ordered offmol) with (factor_dict offmol torsion).
  change (form_angle_dict_ordered offmol) with (factor_dict offmol angle).
  change (form_bond_dict_ordered offmol) with (factor_dict offmol bond).
  rewrite !lookup_union_Some_raw. split.
  - intros [?|[_ [?|[_ ?]]]]; eauto.
  - intros [f Hf].
    assert (∀ f' , f' ≠ f → factor_dict offmol f' !! key = None) as Hnone.
    { intros f' Hne. destruct (factor_dict offmol f' !! key) eqn:E; [|done].
      destruct Hne. by eapply factor_dict_disjoint. }
    destruct f; [right; split; [by apply Hnone|];
                 right; split; [by apply Hnone|]; done
                | right; split; [by apply Hnone|]; by left
                | by left].
Qed.

Lemma data_dict_of_forward offmol f k :
  k < arity f →
  data_dict_of offmol !! forward_etype (factor_name f) k
    = Some (factor_forward_edges offmol f k).
Proof.
  intros Hk. apply data_dict_of_lookup. exists f.
  by apply factor_dict_forward.
Qed.

Lemma data_dict_of_reverse offmol f :
  data_dict_of offmol !! reverse_etype (factor_name f)
    = Some (factor_reverse_edges offmol f).
Proof.
  apply data_dict_of_lookup. exists f. apply factor_dict_reverse.
Qed.

(* ===================================================================== *)
(** ** Node counts inferred by [dgl.heterograph] *)
(* ===================================================================== *)

Lemma max_list_with_le {A} (f : A → nat) (l : list A) (n : nat) :
  (∀ x, x ∈ l → f x ≤ n) → max_list_with f l ≤ n.
Proof.
  induction l as [|x l IH]; intros Hall; simpl; [lia|].
  apply Nat.max_lub.
  - apply Hall, elem_of_cons. by left.
  - apply IH. intros y Hy. apply Hall, elem_of_cons. by right.
Qed.

Lemma max_list_with_ge {A} (f : A → nat) (l : list A) (x : A) :
  x ∈ l → f x ≤ max_list_with f l.
Proof.
  induction l as [|y l IH]; intros Hx; [by apply elem_of_nil in Hx|].
  simpl. apply elem_of_cons in Hx as [->|Hx]; [lia|].
  specialize (IH Hx). lia.
Qed.

Lemma factor_forward_edges_lookup offmol f k i :
  factor_forward_edges offmol f k !! i
    = (λ u, (u, i)) <$> slot_atom offmol f i k.
Proof.
  destruct f; unfold factor_forward_edges, forward_edges, slot_atom;
    rewrite list_lookup_imap; by destruct (_ !! i).
Qed.

Lemma factor_forward_edges_length offmol f k :
  length (factor_forward_edges offmol f k) = factor_count offmol f.
Proof.
  destruct f; unfold factor_forward_edges, forward_edges, factor_count,
    bond_tuples, angle_tuples, torsion_tuples;
    by rewrite length_imap, length_fmap.
Qed.

Lemma slot_atom_is_Some offmol f i k :
  is_Some (slot_atom offmol f i k) ↔ i < factor_count offmol f.
Proof.
  rewrite <-(factor_forward_edges_length offmol f k), <-lookup_lt_is_Some.
  rewrite factor_forward_edges_lookup. by rewrite fmap_is_Some.
Qed.

Lemma elem_of_factor_forward_edges offmol f k e :
  e ∈ factor_forward_edges offmol f k ↔
  slot_atom offmol f e.2 k = Some e.1.
Proof.
  rewrite list_elem_of_lookup. split.
  - intros [i Hi]. rewrite factor_forward_edges_lookup in Hi.
    destruct (slot_atom offmol f i k) eqn:E; simplify_eq/=. done.
  - intros He. exists e.2. rewrite factor_forward_edges_lookup, He.
    by destruct e.
Qed.

Lemma elem_of_factor_reverse_edges offmol f e :
  e ∈ factor_reverse_edges offmol f ↔
  ∃ k, k < arity f ∧ slot_atom offmol f e.1 k = Some e.2.
Proof.
  assert (∀ T (get : T → nat → nat) (tuples : list T) n,
    e ∈ seq 0 n ≫= reverse_edges get tuples ↔
    ∃ k, k < n ∧ (λ t, get t k) <$> tuples !! e.1 = Some e.2) as Hgen.
  { intros T get tuples n. rewrite list_elem_of_bind. split.
    - intros (k & He & Hk%elem_of_seq). exists k. split; [lia|].
      unfold reverse_edges in He.
      apply list_elem_of_lookup in He as [i Hi].
      rewrite list_lookup_imap in Hi.
      destruct (tuples !! i) eqn:E; simplify_eq/=. by rewrite E.
    - intros (k & Hk & He). exists k. split; [|apply elem_of_seq; lia].
      apply list_elem_of_lookup. exists e.1. unfold reverse_edges.
      rewrite list_lookup_imap. destruct e as [ei ex]. simpl in *.
      destruct (tuples !! ei); by simplify_eq/=. }
  destruct f; apply Hgen.
Qed.

Lemma elem_of_referenced_atom_indices offmol x :
  x ∈ referenced_atom_indices offmol ↔
  ∃ f i k, k < arity f ∧ slot_atom offmol f i k = Some x.
Proof.
  assert (∀ T (get : T → nat → nat) (tuples : list T) n,
    x ∈ (tuples ≫= λ t, get t <$> seq 0 n) ↔
    ∃ i k, k < n ∧ (λ t, get t k) <$> tuples !! i = Some x) as Hgen.
  { intros T get tuples n. rewrite list_elem_of_bind. split.
    - intros (t & (k & -> & Hk%elem_of_seq)%list_elem_of_fmap
                & [i Hi]%list_elem_of_lookup).
      exists i, k. split; [lia|]. by rewrite Hi.
    - intros (i & k & Hk & Hx).
      destruct (tuples !! i) as [t|] eqn:E; simplify_eq/=.
      exists t. split; [|by eapply list_elem_of_lookup_2].
      apply list_elem_of_fmap. exists k. split; [done|].
      apply elem_of_seq. lia. }
  unfold referenced_atom_indices. rewrite !elem_of_app, !Hgen. split.
  - intros [(i & k & ? & ?)|[(i & k & ? & ?)|(i & k & ? & ?)]];
      [exists bond|exists angle|exists torsion]; by exists i, k.
  - intros ([] & i & k & ? & ?); [left|right; left|right; right];
      by exists i, k.
Qed.

Lemma infer_num_nodes_le d ntype n :
  (∀ key es, d !! key = Some es → endpoint_bound ntype (key, es) ≤ n) →
  infer_num_nodes d ntype ≤ n.
Proof.
  intros Hall. apply max_list_with_le. intros [key es] Hin.
  apply Hall. by apply elem_of_map_to_list.
Qed.

Lemma infer_num_nodes_ge d ntype key es :
  d !! key = Some es →
  endpoint_bound ntype (key, es) ≤ infer_num_nodes d ntype.
Proof.
  intros Hlk. apply (max_list_with_ge (endpoint_bound ntype)).
  by apply elem_of_map_to_list.
Qed.

Lemma infer_num_nodes_factor offmol f :
  infer_num_nodes (data_dict_of offmol) (factor_name f)
    = factor_count offmol f.
Proof.
  apply Nat.le_antisymm.
  - apply infer_num_nodes_le. intros key es [f' Hf']%data_dict_of_lookup.
    pose proof (factor_name_not_atom f) as Hna.
    apply factor_dict_inv in Hf' as [(k & Hk & -> & ->)|[-> ->]];
      unfold endpoint_bound, forward_etype, reverse_etype;
      rewrite (decide_False (P := "atom" = factor_name f)) by done;
      case_decide as Hff; try lia;
      apply factor_name_inj in Hff as ->;
      rewrite Nat.max_0_l || rewrite Nat.max_0_r;
      apply max_list_with_le; intros e He.
    + apply elem_of_factor_forward_edges in He.
      apply Nat.le_succ_l, (slot_atom_is_Some offmol f e.2 k). by eexists.
    + apply elem_of_factor_reverse_edges in He as (k & _ & He).
      apply Nat.le_succ_l, (slot_atom_is_Some offmol f e.1 k). by eexists.
  - destruct (factor_count offmol f) as [|n] eqn:Hn; [lia|].
    etrans; [|apply (infer_num_nodes_ge _ _ _ _
                       (data_dict_of_forward offmol f 0 ltac:(destruct f; simpl; lia)))].
    unfold endpoint_bound, forward_etype.
    rewrite (decide_True (P := factor_name f = factor_name f)) by done.
    etrans; [|apply Nat.le_max_r].
    destruct (slot_atom offmol f n 0) as [u|] eqn:Hu; last first.
    { apply eq_None_not_Some in Hu. destruct Hu.
      apply slot_atom_is_Some. lia. }
    apply (max_list_with_ge (λ e : nat * nat, S e.2) _ (u, n)).
    by apply elem_of_factor_forward_edges.
Qed.

Lemma infer_num_nodes_atom offmol :
  infer_num_nodes (data_dict_of offmol) "atom"
    = max_list_with S (referenced_atom_indices offmol).
Proof.
  apply Nat.le_antisymm.
  - apply infer_num_nodes_le. intros key es [f Hf]%data_dict_of_lookup.
    pose proof (factor_name_not_atom f) as Hna.
    apply factor_dict_inv in Hf as [(k & Hk & -> & ->)|[-> ->]];
      unfold endpoint_bound, forward_etype, reverse_etype;
      rewrite (decide_False (P := factor_name f = "atom")) by done;
      rewrite (decide_True (P := "atom" = "atom")) by done;
      rewrite Nat.max_0_l || rewrite Nat.max_0_r;
      apply max_list_with_le; intros e He.
    + apply elem_of_factor_forward_edges in He.
      apply (max_list_with_ge S), elem_of_referenced_atom_indices.
      by exists f, e.2, k.
    + apply elem_of_factor_reverse_edges in He as (k & Hk & He).
      apply (max_list_with_ge S), elem_of_referenced_atom_indices.
      by exists f, e.1, k.
  - apply max_list_with_le.
    intros x (f & i & k & Hk & Hx)%elem_of_referenced_atom_indices.
    etrans; [|apply (infer_num_nodes_ge _ _ _ _
                       (data_dict_of_forward offmol f k Hk))].
    unfold endpoint_bound, forward_etype.
    rewrite (decide_True (P := "atom" = "atom")) by done.
    etrans; [|apply Nat.le_max_l].
    apply (max_list_with_ge (λ e : nat * nat, S e.1) _ (x, i)).
    by apply elem_of_factor_forward_edges.
Qed.

(* ===================================================================== *)
(** ** [offmol_to_heterograph] *)
(* ===================================================================== *)

Lemma elem_of_node_types (d : edge_dict) (t : string) :
  t ∈ node_types d ↔
  ∃ key es, d !! key = Some es ∧ (t = key.1.1 ∨ t = key.2).
Proof.
  unfold node_types. rewrite elem_of_list_to_set, list_elem_of_bind. split.
  - intros ([key es] & Ht & Hin%elem_of_map_to_list). exists key, es.
    split; [done|]. simpl in Ht.
    apply elem_of_cons in Ht as [->|Ht]; [by left|].
    apply list_elem_of_singleton in Ht as ->. by right.
  - intros (key & es & Hlk & Ht). exists (key, es).
    split; [|by apply elem_of_map_to_list]. simpl.
    destruct Ht as [->| ->]; [by left|]. right. by left.
Qed.

Lemma num_nodes_heterograph {R : Type} (d : edge_dict) (t : string) :
  t ∈ node_types d →
  num_nodes (dgl_heterograph (R := R) d) !! t = Some (infer_num_nodes d t).
Proof.
  intros Ht. unfold dgl_heterograph. simpl.
  apply lookup_set_to_map; [by intros ?? _ _ ?|]. by exists t.
Qed.

Lemma node_types_atom offmol : "atom" ∈ node_types (data_dict_of offmol).
Proof.
  apply elem_of_node_types. eexists _, _. split.
  - apply (data_dict_of_forward offmol bond 0). simpl. lia.
  - by left.
Qed.

Lemma node_types_factor offmol f :
  factor_name f ∈ node_types (data_dict_of offmol).
Proof.
  apply elem_of_node_types. eexists _, _. split.
  - apply (data_dict_of_reverse offmol f).
  - by left.
Qed.

Section offmol_to_heterograph.
Context {R : Type} `{Scalar R}.

Lemma nrows_one_hot_elements (zs : list Z) :
  nrows (one_hot_elements (R := R) zs) = length zs.
Proof. unfold one_hot_elements, torch_tensor, nrows. simpl. by rewrite length_fmap. Qed.

Lemma nrows_torch_zeros (n m : nat) : nrows (torch_zeros (R := R) n m) = n.
Proof. unfold torch_zeros, nrows. simpl. by rewrite length_replicate. Qed.

Lemma number_of_nodes_set_ndata (g g' : DGLHeteroGraph R) ntype name val t :
  set_ndata g ntype name val = Return g' →
  number_of_nodes g' t = number_of_nodes g t.
Proof.
  unfold set_ndata, number_of_nodes.
  destruct (num_nodes g !! ntype); simpl; [|done].
  case_decide; [|done]. by intros [= <-].
Qed.

Lemma set_ndata_eq (g : DGLHeteroGraph R) ntype name val N :
  num_nodes g !! ntype = Some N →
  set_ndata g ntype name val =
    if decide (nrows val = N)
    then Return (mkGraph (num_nodes g) (edges g)
                   (<[(ntype, name) := val]> (ndata g)))
    else Raise (DGLError "Expect number of features to match number of nodes").
Proof. intros HN. unfold set_ndata, number_of_nodes. by rewrite HN. Qed.

Lemma number_of_nodes_eq (g : DGLHeteroGraph R) ntype N :
  num_nodes g !! ntype = Some N → number_of_nodes g ntype = Return N.
Proof. intros HN. unfold number_of_nodes. by rewrite HN. Qed.

(** When [offmol_to_heterograph] returns, and what. *)
Lemma offmol_to_heterograph_eq (offmol : Molecule) :
  offmol_to_heterograph (R := R) offmol =
    if decide (atom_indices_consistent offmol)
    then Return (mkGraph
           (num_nodes (dgl_heterograph (R := R) (data_dict_of offmol)))
           (data_dict_of offmol) (initial_ndata offmol))
    else Raise (DGLError "Expect number of features to match number of nodes").
Proof.
  unfold offmol_to_heterograph, atom_indices_consistent. cbv zeta.
  pose proof (num_nodes_heterograph (R := R) _ _ (node_types_atom offmol))
    as Hatom.
  pose proof (λ f, num_nodes_heterograph (R := R) _ _
                     (node_types_factor offmol f)) as Hfac.
  rewrite infer_num_nodes_atom in Hatom.
  rewrite (set_ndata_eq _ _ _ _ _ Hatom).
  rewrite nrows_one_hot_elements, length_fmap.
  destruct (decide (length (atoms offmol)
                    = max_list_with S (referenced_atom_indices offmol)))
    as [Heq|Hne]; last first.
  { rewrite decide_False by congruence. done. }
  rewrite decide_True by congruence.
  pose proof (Hfac bond) as Hb. pose proof (Hfac angle) as Ha.
  pose proof (Hfac torsion) as Ht. clear Hfac.
  rewrite infer_num_nodes_factor in Hb, Ha, Ht.
  cbn [factor_name factor_count] in Hb, Ha, Ht.
  cbn [mbind res_bind for_each].
  rewrite (number_of_nodes_eq _ "bond" _) by exact Hb. cbn [mbind res_bind].
  rewrite (set_ndata_eq _ "bond" _ _ (length (bonds offmol))) by exact Hb.
  rewrite decide_True by apply nrows_torch_zeros. cbn [mbind res_bind].
  rewrite (number_of_nodes_eq _ "angle" _) by exact Ha. cbn [mbind res_bind].
  rewrite (set_ndata_eq _ "angle" _ _ (length (angles offmol))) by exact Ha.
  rewrite decide_True by apply nrows_torch_zeros. cbn [mbind res_bind].
  rewrite (number_of_nodes_eq _ "torsion" _) by exact Ht. cbn [mbind res_bind].
  rewrite (set_ndata_eq _ "torsion" _ _ (length (propers offmol))) by exact Ht.
  rewrite decide_True by apply nrows_torch_zeros. done.
Qed.

End offmol_to_heterograph.

(* ===================================================================== *)
(** ** Claims on graph construction and feature initialisation *)
(* ===================================================================== *)

Section construction_claims.
Context {R : Type} `{Scalar R}.

Lemma one_hot_elements_rows (zs : list Z) :
  rows (one_hot_elements (R := R) zs) = element_row <$> zs.
Proof.
  unfold one_hot_elements, torch_tensor. simpl.
  apply list_fmap_ext. intros _ z _. reflexivity.
Qed.

(** C6 (as amended).  For every atom the initializer gives a width-4 row
    that is one-hot over the vocabulary {1,6,7,8}, the positions following
    the iteration order 8, 1, 6, 7 of the Python set: an atomic number in
    the vocabulary gets [Rone] at its position in that order and [Rzero]
    elsewhere, so carbon (6) gets its single one at index 2; an atomic
    number outside the vocabulary gets the all-zero row. *)
Theorem one_hot_elements_vocabulary (zs : list Z) (i : nat) (z : Z) :
  zs !! i = Some z →
  ∃ r, rows (one_hot_elements (R := R) zs) !! i = Some r
     ∧ length r = 4
     ∧ (∀ k, [8; 1; 6; 7]%Z !! k = Some z →
             r = <[k := Rone]> (replicate 4 Rzero))
     ∧ (z = 6%Z → r = [Rzero; Rzero; Rone; Rzero])
     ∧ (z ∉ allowable_atomic_numbers → r = replicate 4 Rzero).
Proof.
  intros Hz. exists (element_row z).
  rewrite one_hot_elements_rows, list_lookup_fmap, Hz.
  split; [done|]. split; [done|]. split; [|split].
  - intros [|[|[|[|k]]]] Hk; simplify_eq/=; reflexivity.
  - intros ->. reflexivity.
  - intros Hnin. unfold element_row, allowable_atomic_numbers in *.
    rewrite !bool_decide_eq_false_2; [done|..]; intros ->; apply Hnin;
      repeat first [apply list_elem_of_here | apply list_elem_of_further].
Qed.

(** C2.  Construction returns exactly for the topologies whose largest
    referenced atom index is the last atom, and the graph it returns has
    one node per bond, angle and torsion; for an arity-n factor type the
    relations (atom, e, factor) are exactly the n relations e = in[k],
    k < n (distinct names for distinct k); and the edge list of
    (atom, in[k], factor) has one edge per factor instance, edge i going
    from the slot-k atom of tuple i to node i. *)
Theorem heterograph_structure (offmol : Molecule) :
  (returns (offmol_to_heterograph (R := R) offmol)
     ↔ atom_indices_consistent offmol)
  ∧ ∀ g, offmol_to_heterograph (R := R) offmol = Return g →
    (∀ f, num_nodes g !! factor_name f = Some (factor_count offmol f))
    ∧ (∀ f e, is_Some (edges g !! ("atom", e, factor_name f))
              ↔ ∃ k, k < arity f ∧ e = in_label k)
    ∧ (∀ j k, in_label j = in_label k → j = k)
    ∧ (∀ f k, k < arity f →
         ∃ es, edges g !! ("atom", in_label k, factor_name f) = Some es
             ∧ length es = factor_count offmol f
             ∧ ∀ i, i < factor_count offmol f →
                 ∃ u, slot_atom offmol f i k = Some u
                    ∧ es !! i = Some (u, i)).
Proof.
  rewrite offmol_to_heterograph_eq. split.
  - case_decide; split; try done.
    + intros _. by eexists.
    + by intros [? ?].
  - intros g Hg. case_decide; [|done]. injection Hg as <-. simpl.
    split; [|split; [|split]].
    + intros f. rewrite <-infer_num_nodes_factor.
      apply (num_nodes_heterograph (R := R)), node_types_factor.
    + intros f e. split.
      * intros [es [f' Hf']%data_dict_of_lookup].
        pose proof (factor_name_not_atom f).
        apply factor_dict_inv in Hf' as [(k & Hk & Heq & _)|[Heq _]];
          unfold forward_etype, reverse_etype in Heq; [|congruence].
        assert (f' = f) as -> by (apply factor_name_inj; congruence).
        exists k. split; [done|congruence].
      * intros (k & Hk & ->). eexists.
        by apply (data_dict_of_forward offmol f k).
    + apply in_label_inj.
    + intros f k Hk. exists (factor_forward_edges offmol f k).
      split; [by apply (data_dict_of_forward offmol f k)|].
      split; [apply factor_forward_edges_length|].
      intros i Hi. apply (slot_atom_is_Some offmol f i k) in Hi as [u Hu].
      exists u. split; [done|].
      by rewrite factor_forward_edges_lookup, Hu.
Qed.

(** C7.  If a bond, angle or torsion tuple mentions an atom index that is
    not below the number of atoms, construction raises (DGL finds more
    atom nodes than feature rows) and returns no graph. *)
Theorem out_of_range_atom_index_aborts (offmol : Molecule)
    (f : factor_type) (i k x : nat) :
  k < arity f →
  slot_atom offmol f i k = Some x →
  length (atoms offmol) ≤ x →
  offmol_to_heterograph (R := R) offmol
    = Raise (DGLError "Expect number of features to match number of nodes")
  ∧ ¬ returns (offmol_to_heterograph (R := R) offmol).
Proof.
  intros Hk Hx Hlen.
  assert (offmol_to_heterograph (R := R) offmol
    = Raise (DGLError "Expect number of features to match number of nodes"))
    as Heq.
  { rewrite offmol_to_heterograph_eq. rewrite decide_False; [done|].
    unfold atom_indices_consistent. intros Hcons.
    assert (S x ≤ max_list_with S (referenced_atom_indices offmol)); [|lia].
    apply (max_list_with_ge S), elem_of_referenced_atom_indices.
    by exists f, i, k. }
  split; [done|]. rewrite Heq. by intros [? ?].
Qed.

End construction_claims.

Lemma one_hot_elements_vocabulary_witness :
  [6%Z] !! 0 = Some 6%Z
  ∧ ∃ r, rows (one_hot_elements (R := Z) [6%Z]) !! 0 = Some r
       ∧ r = [0; 0; 1; 0]%Z.
Proof.
  split; [reflexivity|].
  destruct (one_hot_elements_vocabulary (R := Z) [6%Z] 0 6%Z eq_refl)
    as (r & Hr & _ & _ & H6 & _).
  exists r. split; [exact Hr | exact (H6 eq_refl)].
Defined.

(** C6, as stated, fails: the row of a carbon atom has its one at index 2
    and a zero at index 1. *)
Lemma carbon_not_at_index_1 :
  rows (one_hot_elements (R := Z) [6%Z]) = [[0; 0; 1; 0]%Z]
  ∧ ¬ (∀ r, rows (one_hot_elements (R := Z) [6%Z]) !! 0 = Some r
            → r !! 1 = Some 1%Z).
Proof.
  split; [reflexivity|]. intros Hall.
  specialize (Hall [0; 0; 1; 0]%Z eq_refl). discriminate Hall.
Qed.

Lemma heterograph_structure_witness :
  atom_indices_consistent ring
  ∧ offmol_to_heterograph (R := Z) ring = Return ring_graph
  ∧ num_nodes ring_graph !! "bond" = Some 6
  ∧ edges ring_graph !! ("atom", "in[1]", "angle")
      = Some [(1, 0); (2, 1); (3, 2); (4, 3); (5, 4); (0, 5)].
Proof.
  assert (offmol_to_heterograph (R := Z) ring = Return ring_graph) as Hg
    by (vm_compute; reflexivity).
  pose proof (heterograph_structure (R := Z) ring) as [Hret Hstruct].
  split; [apply Hret; by eexists|]. split; [exact Hg|].
  destruct (Hstruct ring_graph Hg) as (Hn & _ & _ & _).
  split; [exact (Hn bond)|]. vm_compute. reflexivity.
Defined.

Lemma out_of_range_atom_index_aborts_witness :
  1 < arity bond ∧ slot_atom dangling bond 0 1 = Some 5
  ∧ length (atoms dangling) ≤ 5
  ∧ ¬ returns (offmol_to_heterograph (R := Z) dangling).
Proof.
  assert (1 < arity bond) as H1 by (simpl; lia).
  assert (slot_atom dangling bond 0 1 = Some 5) as H2 by reflexivity.
  assert (length (atoms dangling) ≤ 5) as H3 by (simpl; lia).
  split; [exact H1|]. split; [exact H2|]. split; [exact H3|].
  exact (proj2 (out_of_range_atom_index_aborts (R := Z) dangling bond 0 1 5
                  H1 H2 H3)).
Defined.

(* ===================================================================== *)
(** ** Tensors and the network *)
(* ===================================================================== *)

Section network_lemmas.
Context {R : Type} `{Scalar R}.

Lemma MLP_forward_eq (f : MLP R) (x : Tensor R) :
  MLP_forward f x =
    if decide (MLP_accepts f (ncols x))
    then Return (mkTensor (out_features (fc3 f)) (MLP_row f <$> rows x))
    else Raise shape_error.
Proof.
  unfold MLP_forward, Linear_forward, shape_error.
  destruct (decide (MLP_accepts f (ncols x))) as [(H1 & H2 & H3)|Hn].
  - rewrite (decide_True (P := ncols x = _)) by done. simpl.
    rewrite (decide_True (P := out_features (fc1 f) = _)) by done. simpl.
    rewrite (decide_True (P := out_features (fc2 f) = _)) by done.
    f_equal. f_equal.
    rewrite <-!list_fmap_compose. by apply list_fmap_ext.
  - destruct (decide (ncols x = in_features (fc1 f))); simpl; [|done].
    destruct (decide (out_features (fc1 f) = in_features (fc2 f))); simpl;
      [|done].
    destruct (decide (out_features (fc2 f) = in_features (fc3 f))); simpl;
      [|done].
    by destruct Hn.
Qed.

Lemma MLP_init_accepts (i o : nat) (p : MLPParams R) (w : nat) :
  MLP_accepts (MLP_init i o p) w ↔ w = i.
Proof. unfold MLP_accepts, MLP_init. simpl. tauto. Qed.

Lemma torch_cat_eq (ts : list (Tensor R)) (n : nat) :
  ts ≠ [] →
  Forall (λ u, nrows u = n) ts →
  torch_cat ts = Return (mkTensor (sum_list (ncols <$> ts)) (cat_rows n ts)).
Proof.
  intros Hne Hall. destruct ts as [|t ts']; [done|]. unfold torch_cat.
  assert (nrows t = n) as <- by (by apply Forall_cons in Hall as [? _]).
  by rewrite decide_True.
Qed.

Lemma torch_cat_fail (ts : list (Tensor R)) :
  ts ≠ [] →
  (∀ n, ¬ Forall (λ u, nrows u = n) ts) →
  torch_cat ts
    = Raise (RuntimeError "Sizes of tensors must match except in dimension 1").
Proof.
  intros Hne Hall. destruct ts as [|t ts']; [done|]. unfold torch_cat.
  rewrite decide_False; [done|]. apply Hall.
Qed.

Lemma length_cat_rows (n : nat) (ts : list (Tensor R)) :
  length (cat_rows n ts) = n.
Proof. unfold cat_rows. by rewrite length_fmap, length_seq. Qed.

Lemma zip_with_comm {A B} (f : A → A → B) (l k : list A) :
  (∀ x y, f x y = f y x) → zip_with f l k = zip_with f k l.
Proof.
  intros Hf. revert k. induction l as [|x l IH]; intros [|y k]; simpl;
    [done..|]. by rewrite Hf, IH.
Qed.

Lemma vadd_comm (x y : list R) :
  (∀ a b : R, Radd a b = Radd b a) → vadd x y = vadd y x.
Proof. intros Hc. by apply zip_with_comm. Qed.

Lemma tensor_add_comm (a b : Tensor R) :
  (∀ x y : R, Radd x y = Radd y x) → tensor_add a b = tensor_add b a.
Proof.
  intros Hc. unfold tensor_add.
  destruct (decide (nrows a = nrows b ∧ ncols a = ncols b)) as [[H1 H2]|Hn].
  - rewrite decide_True by done. f_equal. rewrite H2. f_equal.
    apply zip_with_comm. intros x y. by apply vadd_comm.
  - rewrite decide_False by (intros [? ?]; apply Hn; done). done.
Qed.

(** Symmetrizing over the two orders does not see which one came first. *)
Lemma symmetrized_reverse (F : MLP R) (slots : list (Tensor R))
    (r : Tensor R) :
  (∀ x y : R, Radd x y = Radd y x) →
  symmetrized F (reverse slots) r = symmetrized F slots r.
Proof.
  intros Hc. unfold symmetrized. rewrite reverse_involutive.
  destruct (decide (Forall (λ u, nrows u = nrows r) slots)) as [Hall|Hnall].
  - assert (Forall (λ u, nrows u = nrows r) (slots ++ [r])) as Hf.
    { apply Forall_app. split; [done|]. by apply Forall_singleton. }
    assert (Forall (λ u, nrows u = nrows r) (reverse slots ++ [r])) as Hr.
    { apply Forall_app. split; [by apply Forall_reverse|].
      by apply Forall_singleton. }
    rewrite (torch_cat_eq (slots ++ [r]) (nrows r));
      [|by destruct slots|done].
    rewrite (torch_cat_eq (reverse slots ++ [r]) (nrows r));
      [|by destruct (reverse slots)|done].
    cbn [mbind res_bind]. rewrite !MLP_forward_eq. cbn [ncols rows].
    rewrite !fmap_app, !sum_list_with_app, fmap_reverse, sum_list_with_reverse.
    destruct (decide (MLP_accepts F _)); cbn [mbind res_bind]; [|done].
    by apply tensor_add_comm.
  - assert (∀ l, (∀ u, u ∈ l ↔ u ∈ slots) → ∀ n,
        ¬ Forall (λ u : Tensor R, nrows u = n) (l ++ [r])) as Hfail.
    { intros l Hl n [Hs Hr]%Forall_app. apply Hnall.
      apply Forall_cons in Hr as [Hr _]. simpl in Hr.
      rewrite Forall_forall. intros u Hu. apply Hl in Hu.
      rewrite Forall_forall in Hs. rewrite Hr. by apply Hs. }
    rewrite (torch_cat_fail (slots ++ [r]));
      [|by destruct slots|by apply Hfail].
    rewrite (torch_cat_fail (reverse slots ++ [r])); [done| |].
    + by destruct (reverse slots).
    + apply Hfail. intros u. by rewrite elem_of_reverse.
Qed.

End network_lemmas.

(* ===================================================================== *)
(** ** The gather step *)
(* ===================================================================== *)

Section gather_lemmas.
Context {R : Type} `{Scalar R}.
Implicit Types (g : DGLHeteroGraph R) (self : AtomToFactor R).

Lemma destination_name_inj self (j k : nat) :
  destination_name self j = destination_name self k → j = k.
Proof.
  unfold destination_name. intros Heq.
  apply (inj (String.app (msg_dest_name self))) in Heq.
  apply (inj (String.app "[")) in Heq.
  apply string_app_inj_r in Heq. by apply (inj pretty) in Heq.
Qed.

Lemma set_ndata_inv g ntype name val g' :
  set_ndata g ntype name val = Return g' →
  num_nodes g !! ntype = Some (nrows val)
  ∧ g' = mkGraph (num_nodes g) (edges g) (<[(ntype, name) := val]> (ndata g)).
Proof.
  unfold set_ndata, number_of_nodes.
  destruct (num_nodes g !! ntype) as [N|]; simpl; [|done].
  case_decide as HN; [|done]. intros [= <-]. by rewrite HN.
Qed.

Lemma get_ndata_inv g ntype name t :
  get_ndata g ntype name = Return t ↔ ndata g !! (ntype, name) = Some t.
Proof.
  unfold get_ndata. destruct (ndata g !! (ntype, name)); split;
    intros; simplify_eq; done.
Qed.

Lemma nrows_copy_u_sum (X : Tensor R) es N : nrows (copy_u_sum X es N) = N.
Proof. unfold copy_u_sum, nrows. simpl. by rewrite length_fmap, length_seq. Qed.

Lemma pull_copy_u_sum_inv g et N src dest g' :
  pull_copy_u_sum g et N src dest = Return g' →
  ∃ es, edges g !! et = Some es
    ∧ ((N = 0 ∧ g' = g)
       ∨ (N ≠ 0 ∧ ∃ X, ndata g !! (et.1.1, src) = Some X
            ∧ num_nodes g !! et.2 = Some N
            ∧ g' = mkGraph (num_nodes g) (edges g)
                     (<[(et.2, dest) := copy_u_sum X es N]> (ndata g)))).
Proof.
  unfold pull_copy_u_sum. destruct (edges g !! et) as [es|]; [|done].
  intros Hp. exists es. split; [done|].
  case_decide as HN; [left; by simplify_eq|]. right. split; [done|].
  destruct (get_ndata g et.1.1 src) as [X|] eqn:HX; simpl in Hp; [|done].
  apply get_ndata_inv in HX. exists X. split; [done|].
  apply set_ndata_inv in Hp as [Hn ->]. by rewrite nrows_copy_u_sum in Hn.
Qed.


(** The loop over the slots, for any list of slots. *)
Lemma gather_loop_inv (factor : string) self (N : nat) (ks : list nat)
    g g' :
  factor ≠ "atom" →
  for_each (λ g i,
      pull_copy_u_sum g ("atom", in_label i, factor) N
        (msg_src_name self) (destination_name self i)) g ks = Return g' →
  num_nodes g' = num_nodes g
  ∧ edges g' = edges g
  ∧ (∀ key, key ∉ (λ k, (factor, destination_name self k)) <$> ks →
       ndata g' !! key = ndata g !! key)
  ∧ (N = 0 → g' = g)
  ∧ (N ≠ 0 → NoDup ks → ∀ k, k ∈ ks →
       ∃ X es, ndata g !! ("atom", msg_src_name self) = Some X
         ∧ edges g !! ("atom", in_label k, factor) = Some es
         ∧ num_nodes g !! factor = Some N
         ∧ ndata g' !! (factor, destination_name self k)
             = Some (copy_u_sum X es N)).
Proof.
  intros Hfa. revert g. induction ks as [|a ks IH]; intros g Hloop.
  - injection Hloop as <-. repeat split; try done.
    intros _ _ k Hk. by apply elem_of_nil in Hk.
  - cbn [for_each] in Hloop.
    destruct (pull_copy_u_sum g _ N _ _) as [g1|] eqn:Hpull;
      cbn [mbind res_bind] in Hloop; [|done].
    apply pull_copy_u_sum_inv in Hpull as (es & Hes & Hcase).
    apply IH in Hloop as (Hn & He & Hother & H0 & Hslots). clear IH.
    simpl in Hcase.
    destruct Hcase as [[HN ->]|(HN & X & HX & HNn & ->)].
    + split; [done|]. split; [done|]. split; [|split; [done|lia]].
      intros key Hkey. apply Hother. intros Hin. apply Hkey.
      rewrite fmap_cons. by apply list_elem_of_further.
    + cbn [num_nodes edges ndata] in *.
      split; [done|]. split; [done|]. split; [|split; [lia|]].
      * intros key Hkey. rewrite Hother.
        -- rewrite lookup_insert_ne; [done|]. intros <-. apply Hkey.
           rewrite fmap_cons. apply list_elem_of_here.
        -- intros Hin. apply Hkey. rewrite fmap_cons.
           by apply list_elem_of_further.
      * intros _ [Ha Hnd]%NoDup_cons k [->|Hk]%elem_of_cons.
        -- exists X, es. split; [done|]. split; [done|]. split; [done|].
           rewrite Hother; [by rewrite lookup_insert_eq|].
           intros (k & [= Hk] & Hin)%list_elem_of_fmap.
           apply destination_name_inj in Hk as ->. done.
        -- destruct (Hslots HN Hnd k Hk) as (X' & es' & HX' & Hes' & _ & Hk').
           rewrite lookup_insert_ne in HX' by congruence.
           exists X', es'. by repeat split.
Qed.

Lemma gather_unfold (f : factor_type) self g :
  gather f self g =
    N ← number_of_nodes g (factor_name f);
    for_each (λ g i,
        pull_copy_u_sum g ("atom", in_label i, factor_name f) N
          (msg_src_name self) (destination_name self i))
      g (seq 0 (arity f)).
Proof. by destruct f. Qed.

Lemma gather_inv (f : factor_type) self g g' :
  gather f self g = Return g' →
  ∃ N, num_nodes g !! factor_name f = Some N
  ∧ num_nodes g' = num_nodes g
  ∧ edges g' = edges g
  ∧ (∀ key, key ∉ scratch_keys self f → ndata g' !! key = ndata g !! key)
  ∧ (N = 0 → g' = g)
  ∧ (N ≠ 0 → ∀ k, k < arity f →
       ∃ X es, ndata g !! ("atom", msg_src_name self) = Some X
         ∧ edges g !! ("atom", in_label k, factor_name f) = Some es
         ∧ ndata g' !! (factor_name f, destination_name self k)
             = Some (copy_u_sum X es N)).
Proof.
  rewrite gather_unfold. unfold number_of_nodes.
  destruct (num_nodes g !! factor_name f) as [N|] eqn:HN; [|done].
  cbn [mbind res_bind]. intros Hloop. exists N. split; [done|].
  apply gather_loop_inv in Hloop as (Hn & He & Hother & H0 & Hslots);
    [|apply factor_name_not_atom].
  repeat split; try done.
  intros HN0 k Hk.
  destruct (Hslots HN0 (NoDup_seq _ _) k) as (X & es & ? & ? & ? & ?).
  { apply elem_of_seq. lia. }
  by exists X, es.
Qed.


End gather_lemmas.

Section gather_claim.
Context {R : Type} `{Scalar R}.
Implicit Types (g : DGLHeteroGraph R) (self : AtomToFactor R).


Lemma copy_u_sum_lookup (X : Tensor R) es N i :
  i < N →
  rows (copy_u_sum X es N) !! i
    = Some (vsum (ncols X) (messages_into es X i)).
Proof.
  intros Hi. unfold copy_u_sum. simpl.
  by rewrite list_lookup_fmap, lookup_seq_lt.
Qed.


End gather_claim.


(* ===================================================================== *)
(** ** The update step *)
(* ===================================================================== *)

Section update_lemmas.
Context {R : Type} `{Scalar R}.
Implicit Types (g : DGLHeteroGraph R) (self : AtomToFactor R).

Lemma update_unfold (f : factor_type) self g :
  update f self g =
    compute_updated_representation (factor_name f) (arity f) (network f)
      self g.
Proof. by destruct f. Qed.

(** The update step reads the current representation and the slot
    buffers, and writes their symmetrized transform. *)
Lemma update_eq (f : factor_type) self g :
  update f self g =
    r ← get_ndata g (factor_name f) (current_repr_name self);
    slots ← read_slots f self g;
    y ← symmetrized (network f self) slots r;
    set_ndata g (factor_name f) (updated_repr_name self) y.
Proof.
  rewrite update_unfold.
  unfold compute_updated_representation, read_slots, symmetrized.
  destruct (get_ndata g _ (current_repr_name self)) as [r|];
    cbn [mbind res_bind]; [|done].
  destruct (mapM _ _) as [slots|]; cbn [mbind res_bind]; [|done].
  destruct (torch_cat (slots ++ [r])) as [X_f|]; [|reflexivity].
  destruct (torch_cat (reverse slots ++ [r])) as [X_r|]; [|reflexivity].
  cbn [mbind res_bind].
  destruct (MLP_forward _ X_f); [|reflexivity].
  destruct (MLP_forward _ X_r); [|reflexivity].
  cbn [mbind res_bind].
  by destruct (tensor_add _ _).
Qed.

Lemma update_inv (f : factor_type) self g g' :
  update f self g = Return g' →
  ∃ r slots y,
    ndata g !! (factor_name f, current_repr_name self) = Some r
    ∧ read_slots f self g = Return slots
    ∧ symmetrized (network f self) slots r = Return y
    ∧ num_nodes g !! factor_name f = Some (nrows y)
    ∧ g' = mkGraph (num_nodes g) (edges g)
             (<[(factor_name f, updated_repr_name self) := y]> (ndata g)).
Proof.
  rewrite update_eq.
  destruct (get_ndata g _ (current_repr_name self)) as [r|] eqn:Hr;
    cbn [mbind res_bind]; [|done].
  destruct (read_slots f self g) as [slots|]; cbn [mbind res_bind]; [|done].
  destruct (symmetrized _ _ _) as [y|] eqn:Hy; cbn [mbind res_bind]; [|done].
  intros [HN ->]%set_ndata_inv. apply get_ndata_inv in Hr.
  by exists r, slots, y.
Qed.

Lemma updated_repr_set_ndata (f : factor_type) self g y :
  updated_repr f self (set_ndata g (factor_name f) (updated_repr_name self) y)
  = (_ ← set_ndata g (factor_name f) (updated_repr_name self) y; Return y).
Proof.
  unfold updated_repr.
  destruct (set_ndata g _ _ y) as [g'|] eqn:Hset; cbn [mbind res_bind];
    [|done].
  apply set_ndata_inv in Hset as [_ ->]. unfold get_ndata. simpl.
  by rewrite lookup_insert_eq.
Qed.

End update_lemmas.

Section update_claim.
Context {R : Type} `{Scalar R}.
Implicit Types (g : DGLHeteroGraph R) (self : AtomToFactor R).

(** C1.  For each factor type, with [r] the current representation and
    [slots] the gathered slot tensors, the update step writes
    F(X_forward) + F(X_reverse), where X_forward joins the slots in slot
    order and then r, and X_reverse joins them in reversed order and then
    r.  With a commutative scalar addition the result is the same for the
    reversed slot order, and a graph holding the slot buffers in reversed
    order gets the same updated representation. *)
Theorem update_symmetrized_reflection (f : factor_type) self g
    (r : Tensor R) (slots : list (Tensor R)) :
  (∀ x y : R, Radd x y = Radd y x) →
  get_ndata g (factor_name f) (current_repr_name self) = Return r →
  read_slots f self g = Return slots →
  update f self g
    = (X_forward ← torch_cat (slots ++ [r]);
       X_reverse ← torch_cat (reverse slots ++ [r]);
       y_forward ← MLP_forward (network f self) X_forward;
       y_reverse ← MLP_forward (network f self) X_reverse;
       y ← tensor_add y_forward y_reverse;
       set_ndata g (factor_name f) (updated_repr_name self) y)
  ∧ symmetrized (network f self) (reverse slots) r
      = symmetrized (network f self) slots r
  ∧ ∀ g_rev,
      num_nodes g_rev !! factor_name f = num_nodes g !! factor_name f →
      get_ndata g_rev (factor_name f) (current_repr_name self) = Return r →
      read_slots f self g_rev = Return (reverse slots) →
      updated_repr f self (update f self g_rev)
        = updated_repr f self (update f self g).
Proof.
  intros Hc Hr Hslots. split; [|split].
  - rewrite update_unfold. unfold compute_updated_representation.
    unfold read_slots in Hslots. by rewrite Hr, Hslots.
  - by apply symmetrized_reverse.
  - intros g_rev Hn Hr' Hslots'. rewrite !update_eq.
    rewrite Hr, Hr', Hslots, Hslots'. cbn [mbind res_bind].
    rewrite symmetrized_reverse by done.
    destruct (symmetrized _ slots r) as [y|]; cbn [mbind res_bind]; [|done].
    rewrite !updated_repr_set_ndata.
    unfold set_ndata, number_of_nodes. rewrite Hn.
    destruct (num_nodes g !! factor_name f); cbn [mbind res_bind]; [|done].
    by case_decide.
Qed.

End update_claim.

Lemma update_symmetrized_reflection_witness :
  ∃ r slots y,
    get_ndata (gathered_graph torsion chain) "torsion"
      "initial_representation" = Return r
    ∧ read_slots torsion factor_net (gathered_graph torsion chain)
        = Return slots
    ∧ read_slots torsion factor_net (gathered_graph torsion chain_reversed)
        = Return (reverse slots)
    ∧ slots ≠ reverse slots
    ∧ updated_repr torsion factor_net
        (update torsion factor_net (gathered_graph torsion chain)) = Return y
    ∧ updated_repr torsion factor_net
        (update torsion factor_net (gathered_graph torsion chain_reversed))
      = Return y.
Proof.
  eexists _, _, _.
  assert (get_ndata (gathered_graph torsion chain) "torsion"
            "initial_representation"
          = Return (mkTensor 1 [[0%Z]])) as Hr by (vm_compute; reflexivity).
  assert (read_slots torsion factor_net (gathered_graph torsion chain)
          = Return [mkTensor 4 [[1; 0; 0; 0]%Z]; mkTensor 4 [[0; 0; 1; 0]%Z];
                    mkTensor 4 [[0; 0; 0; 1]%Z]; mkTensor 4 [[0; 0; 1; 0]%Z]])
    as Hs by (vm_compute; reflexivity).
  pose proof (update_symmetrized_reflection torsion factor_net
                (gathered_graph torsion chain) _ _ Z.add_comm Hr Hs)
    as (_ & _ & Hrev).
  split; [exact Hr|]. split; [exact Hs|].
  assert (read_slots torsion factor_net
            (gathered_graph torsion chain_reversed)
          = Return (reverse [mkTensor 4 [[1; 0; 0; 0]%Z];
                             mkTensor 4 [[0; 0; 1; 0]%Z];
                             mkTensor 4 [[0; 0; 0; 1]%Z];
                             mkTensor 4 [[0; 0; 1; 0]%Z]]))
    as Hs' by (vm_compute; reflexivity).
  split; [exact Hs'|]. split; [discriminate|].
  split; [vm_compute; reflexivity|].
  rewrite (Hrev (gathered_graph torsion chain_reversed)).
  - vm_compute. reflexivity.
  - vm_compute. reflexivity.
  - vm_compute. reflexivity.
  - exact Hs'.
Defined.

(* ===================================================================== *)
(** ** The dimension contract *)
(* ===================================================================== *)

Section dimension_claim.
Context {R : Type} `{Scalar R}.
Implicit Types (g : DGLHeteroGraph R) (self : AtomToFactor R).

Lemma mapM_res_inv {A B} (h : A → res B) (l : list A) (k : list B) :
  mapM h l = Return k → Forall2 (λ x y, h x = Return y) l k.
Proof.
  revert k. induction l as [|x l IH]; intros k; simpl.
  - intros [= <-]. constructor.
  - destruct (h x) as [y|] eqn:Hx; cbn [mbind res_bind]; [|done].
    destruct (mapM h l) as [k'|]; cbn [mbind res_bind]; [|done].
    intros [= <-]. constructor; [done|]. by apply IH.
Qed.

Lemma read_slots_inv (f : factor_type) self g slots :
  read_slots f self g = Return slots →
  length slots = arity f
  ∧ ∀ t, t ∈ slots → ∃ k, k < arity f
      ∧ ndata g !! (factor_name f, destination_name self k) = Some t.
Proof.
  intros Hread%mapM_res_inv. split.
  - apply Forall2_length in Hread. by rewrite length_seq in Hread.
  - intros t [i Hi]%list_elem_of_lookup.
    destruct (Forall2_lookup_r _ _ _ _ _ Hread Hi) as (k & Hk & Hget).
    apply lookup_seq in Hk as [-> Hk]. exists i. split; [done|].
    by apply get_ndata_inv.
Qed.

Lemma symmetrized_eq (F : MLP R) (slots : list (Tensor R)) (r : Tensor R) :
  Forall (λ u, nrows u = nrows r) slots →
  symmetrized F slots r =
    if decide (MLP_accepts F (sum_list (ncols <$> slots) + ncols r))
    then Return (mkTensor (out_features (fc3 F))
      (zip_with vadd
         (MLP_row F <$> cat_rows (nrows r) (slots ++ [r]))
         (MLP_row F <$> cat_rows (nrows r) (reverse slots ++ [r]))))
    else Raise shape_error.
Proof.
  intros Hall. unfold symmetrized.
  rewrite (torch_cat_eq (slots ++ [r]) (nrows r)); [|by destruct slots|];
    last first.
  { apply Forall_app. split; [done|]. by apply Forall_singleton. }
  rewrite (torch_cat_eq (reverse slots ++ [r]) (nrows r));
    [|by destruct (reverse slots)|]; last first.
  { apply Forall_app. split; [by apply Forall_reverse|].
    by apply Forall_singleton. }
  cbn [mbind res_bind]. rewrite !MLP_forward_eq. cbn [ncols rows].
  rewrite !fmap_app, !sum_list_with_app, fmap_reverse, sum_list_with_reverse.
  simpl. rewrite Nat.add_0_r.
  destruct (decide (MLP_accepts F _)); cbn [mbind res_bind]; [|done].
  unfold tensor_add, nrows. cbn [ncols rows].
  rewrite decide_True; [done|].
  by rewrite !length_fmap, !length_cat_rows.
Qed.

Lemma AtomToFactor_init_inv (msg_src msg_dest cur upd : string) (d : nat)
    (idims udims : gmap string nat) (pb pa pt : MLPParams R) self
    (f : factor_type) :
  AtomToFactor_init msg_src msg_dest cur upd d idims udims pb pa pt
    = Return self →
  msg_src_name self = msg_src ∧ msg_dest_name self = msg_dest
  ∧ current_repr_name self = cur ∧ updated_repr_name self = upd
  ∧ atom_dim self = d
  ∧ ∃ c u p, idims !! factor_name f = Some c
      ∧ udims !! factor_name f = Some u
      ∧ network f self = MLP_init (d * arity f + c) u p.
Proof.
  unfold AtomToFactor_init, dims_get.
  destruct (idims !! "bond") as [ib|] eqn:Hib; [|done].
  destruct (udims !! "bond") as [ub|] eqn:Hub; [|done].
  destruct (idims !! "angle") as [ia|] eqn:Hia; [|done].
  destruct (udims !! "angle") as [ua|] eqn:Hua; [|done].
  destruct (idims !! "torsion") as [it|] eqn:Hit; [|done].
  destruct (udims !! "torsion") as [ut|] eqn:Hut; [|done].
  cbn [mbind res_bind]. intros [= <-]. cbn.
  do 5 (split; [done|]). destruct f; cbn; eauto 10.
Qed.

(** C4 (as amended).  For a transform built with atom dimension d and
    current dimension c for a factor type of arity n, on a graph whose
    feature tables have one row per node, the update step produces a
    result exactly when the joined input has width d*n + c, and raises
    torch's shape error otherwise.  So with slot buffers of width d' and a
    current representation of width c' it fails when c' differs from c and
    d' = d, or d' differs from d and c' = c, and in general whenever
    n*d' + c' differs from n*d + c. *)
Theorem update_dimension_contract (f : factor_type)
    (msg_src msg_dest cur upd : string) (d : nat)
    (idims udims : gmap string nat) (pb pa pt : MLPParams R)
    self g (c : nat) (r : Tensor R) (slots : list (Tensor R)) :
  AtomToFactor_init msg_src msg_dest cur upd d idims udims pb pa pt
    = Return self →
  idims !! factor_name f = Some c →
  features_consistent g →
  get_ndata g (factor_name f) (current_repr_name self) = Return r →
  read_slots f self g = Return slots →
  (returns (update f self g)
     ↔ sum_list (ncols <$> slots) + ncols r = d * arity f + c)
  ∧ (sum_list (ncols <$> slots) + ncols r ≠ d * arity f + c →
       update f self g = Raise shape_error)
  ∧ ∀ d', Forall (λ t, ncols t = d') slots →
      (returns (update f self g)
         ↔ arity f * d' + ncols r = arity f * d + c)
      ∧ (d' = d → ncols r ≠ c → update f self g = Raise shape_error)
      ∧ (ncols r = c → d' ≠ d → update f self g = Raise shape_error).
Proof.
  intros Hinit Hc Hcons Hr Hslots.
  destruct (AtomToFactor_init_inv _ _ _ _ _ _ _ _ _ _ _ f Hinit)
    as (_ & _ & _ & _ & _ & c' & u & p & Hc' & _ & Hnet).
  assert (c' = c) as -> by congruence.
  pose proof Hr as Hr'. apply get_ndata_inv in Hr'.
  pose proof (Hcons _ _ Hr') as HN. cbn [fst] in HN.
  destruct (read_slots_inv _ _ _ _ Hslots) as [Hlen Hin].
  assert (Forall (λ u, nrows u = nrows r) slots) as Hrows.
  { apply Forall_forall. intros t (k & _ & Ht)%Hin.
    apply Hcons in Ht. cbn [fst] in Ht. congruence. }
  assert (update f self g =
    if decide (sum_list (ncols <$> slots) + ncols r = d * arity f + c)
    then Return (mkGraph (num_nodes g) (edges g)
      (<[(factor_name f, updated_repr_name self) :=
          mkTensor u (zip_with vadd
            (MLP_row (network f self)
               <$> cat_rows (nrows r) (slots ++ [r]))
            (MLP_row (network f self)
               <$> cat_rows (nrows r) (reverse slots ++ [r])))]>
       (ndata g)))
    else Raise shape_error) as Hupd.
  { rewrite update_eq, Hr, Hslots. cbn [mbind res_bind].
    rewrite symmetrized_eq by done.
    destruct (decide (sum_list (ncols <$> slots) + ncols r
                      = d * arity f + c)) as [Hw|Hw].
    - rewrite decide_True by (rewrite Hnet; by apply MLP_init_accepts).
      cbn [mbind res_bind]. rewrite (set_ndata_eq _ _ _ _ _ HN).
      rewrite decide_True.
      + by rewrite Hnet.
      + unfold nrows. cbn [rows].
        by rewrite length_zip_with, !length_fmap, !length_cat_rows,
          Nat.min_id.
    - rewrite decide_False; [done|].
      rewrite Hnet. by intros ?%MLP_init_accepts. }
  assert (returns (update f self g)
          ↔ sum_list (ncols <$> slots) + ncols r = d * arity f + c)
    as Hiff.
  { rewrite Hupd. case_decide; split; try done.
    - intros _. by eexists.
    - by intros [? ?]. }
  split; [done|]. split.
  { intros Hne. rewrite Hupd. by rewrite decide_False. }
  intros d' Hd'.
  assert (sum_list (ncols <$> slots) = arity f * d') as Hsum.
  { rewrite <-Hlen. by apply sum_list_fmap_same. }
  rewrite Hsum in Hiff, Hupd. split; [|split].
  - rewrite Hiff. lia.
  - intros -> Hne. rewrite decide_False in Hupd by lia. done.
  - intros Heq Hne. rewrite decide_False in Hupd; [done|].
    assert (0 < arity f) by (destruct f; simpl; lia). nia.
Qed.

End dimension_claim.

Lemma update_dimension_contract_witness :
  AtomToFactor_init "element" "element" "initial_representation"
    "round1_representation" ATOM_DIM default_initial_factor_dims
    default_updated_factor_dims example_params example_params example_params
    = Return factor_net
  ∧ features_consistent (gathered_graph bond chain)
  ∧ returns (update bond factor_net (gathered_graph bond chain))
  ∧ ∃ r slots,
      get_ndata (gathered_graph bond chain) "bond" "initial_representation"
        = Return r
      ∧ read_slots bond factor_net (gathered_graph bond chain) = Return slots
      ∧ sum_list (ncols <$> slots) + ncols r = 4 * 2 + 1.
Proof.
  assert (AtomToFactor_init "element" "element" "initial_representation"
    "round1_representation" ATOM_DIM default_initial_factor_dims
    default_updated_factor_dims example_params example_params example_params
    = Return factor_net) as Hinit by reflexivity.
  assert (default_initial_factor_dims !! factor_name bond = Some 1) as Hc
    by reflexivity.
  assert (features_consistent (gathered_graph bond chain)) as Hcons.
  { apply (bool_decide_unpack (features_consistent _)). vm_compute.
    exact I. }
  assert (get_ndata (gathered_graph bond chain) (factor_name bond)
            (current_repr_name factor_net)
          = Return (mkTensor 1 [[0]; [0]; [0]]%Z)) as Hr
    by (vm_compute; reflexivity).
  assert (read_slots bond factor_net (gathered_graph bond chain)
          = Return [mkTensor 4 [[1; 0; 0; 0]; [0; 0; 1; 0]; [0; 0; 0; 1]]%Z;
                    mkTensor 4 [[0; 0; 1; 0]; [0; 0; 0; 1]; [0; 0; 1; 0]]%Z])
    as Hs by (vm_compute; reflexivity).
  pose proof (update_dimension_contract bond _ _ _ _ _ _ _ _ _ _ _
                (gathered_graph bond chain) 1 _ _ Hinit Hc Hcons Hr Hs)
    as (Hiff & _ & _).
  split; [exact Hinit|]. split; [exact Hcons|].
  split; [apply Hiff; reflexivity|].
  eexists _, _. split; [exact Hr|]. split; [exact Hs|]. reflexivity.
Defined.

(** C4, as stated, fails: a transform built for atom dimension 4 and
    current dimension 1 is fed slot buffers of width 3 and a current
    representation of width 3 (both different from what it was built for)
    and the bond update produces a result, since 2*3 + 3 = 2*4 + 1. *)
Lemma compensating_widths_accepted :
  ∃ self g r slots,
    narrow_net = Return self
    ∧ atom_dim self = 4
    ∧ initial_factor_dims self !! "bond" = Some 1
    ∧ gather bond self narrow_graph = Return g
    ∧ get_ndata g "bond" (current_repr_name self) = Return r
    ∧ ncols r = 3
    ∧ read_slots bond self g = Return slots
    ∧ Forall (λ t, ncols t = 3) slots
    ∧ returns (update bond self g).
Proof.
  eexists _, _, _, _.
  split; [vm_compute; reflexivity|].
  split; [reflexivity|]. split; [reflexivity|].
  split; [vm_compute; reflexivity|].
  split; [vm_compute; reflexivity|].
  split; [reflexivity|].
  split; [vm_compute; reflexivity|].
  split; [repeat constructor|].
  eexists. vm_compute. reflexivity.
Qed.

(* ===================================================================== *)
(** ** One update layer *)
(* ===================================================================== *)

Section forward_lemmas.
Context {R : Type} `{Scalar R}.
Implicit Types (g : DGLHeteroGraph R) (self : AtomToFactor R).

Lemma gather_frame (f : factor_type) self g g' :
  gather f self g = Return g' → step_frame f g g'.
Proof.
  intros (N & _ & Hn & He & Hother & _)%gather_inv.
  split; [done|]. split; [done|]. intros key Hkey. apply Hother.
  unfold scratch_keys. intros (k & -> & _)%list_elem_of_fmap. done.
Qed.

Lemma update_frame (f : factor_type) self g g' :
  update f self g = Return g' → step_frame f g g'.
Proof.
  intros (r & slots & y & _ & _ & _ & _ & ->)%update_inv.
  split; [done|]. split; [done|]. intros key Hkey. simpl.
  apply lookup_insert_ne. intros <-. done.
Qed.

Lemma step_frame_trans (f1 f2 : factor_type) g1 g2 g3 :
  step_frame f1 g1 g2 → step_frame f2 g2 g3 →
  num_nodes g3 = num_nodes g1 ∧ edges g3 = edges g1
  ∧ ∀ key, key.1 ≠ factor_name f1 → key.1 ≠ factor_name f2 →
      ndata g3 !! key = ndata g1 !! key.
Proof.
  intros (Hn1 & He1 & Hd1) (Hn2 & He2 & Hd2).
  split; [congruence|]. split; [congruence|].
  intros key H1 H2. by rewrite Hd2, Hd1.
Qed.

Lemma forward_inv self g g' :
  forward self g = Return g' →
  ∃ g1 g2 g3 g4 g5,
    gather bond self g = Return g1 ∧ update bond self g1 = Return g2
    ∧ gather angle self g2 = Return g3 ∧ update angle self g3 = Return g4
    ∧ gather torsion self g4 = Return g5
    ∧ update torsion self g5 = Return g'.
Proof.
  unfold forward.
  change (_pass_labeled_messages_from_atom_to_bond self g)
    with (gather bond self g).
  destruct (gather bond self g) as [g1|] eqn:E1; cbn [mbind res_bind]; [|done].
  change (_compute_updated_bond_representation self g1)
    with (update bond self g1).
  destruct (update bond self g1) as [g2|] eqn:E2; cbn [mbind res_bind]; [|done].
  change (_pass_labeled_messages_from_atom_to_angle self g2)
    with (gather angle self g2).
  destruct (gather angle self g2) as [g3|] eqn:E3; cbn [mbind res_bind]; [|done].
  change (_compute_updated_angle_representation self g3)
    with (update angle self g3).
  destruct (update angle self g3) as [g4|] eqn:E4; cbn [mbind res_bind]; [|done].
  change (_pass_labeled_messages_from_atom_to_torsion self g4)
    with (gather torsion self g4).
  destruct (gather torsion self g4) as [g5|] eqn:E5; cbn [mbind res_bind]; [|done].
  change (_compute_updated_torsion_representation self g5)
    with (update torsion self g5).
  intros Hupd. exists g1, g2, g3, g4, g5. repeat (split; [done|]). done.
Qed.

(** A gather step followed by the update step of the same factor type. *)
Lemma gather_update_inv (f : factor_type) self g g1 g2 :
  gather f self g = Return g1 → update f self g1 = Return g2 →
  num_nodes g2 = num_nodes g ∧ edges g2 = edges g
  ∧ (∀ key, key.1 ≠ factor_name f → ndata g2 !! key = ndata g !! key)
  ∧ (∀ key, key ∉ scratch_keys self f →
       key ≠ (factor_name f, updated_repr_name self) →
       ndata g2 !! key = ndata g !! key)
  ∧ is_Some (ndata g2 !! (factor_name f, updated_repr_name self))
  ∧ ∀ N k, num_nodes g !! factor_name f = Some N → N ≠ 0 → k < arity f →
      updated_repr_name self ≠ destination_name self k →
      ∃ X es, ndata g !! ("atom", msg_src_name self) = Some X
        ∧ edges g !! ("atom", in_label k, factor_name f) = Some es
        ∧ ndata g2 !! (factor_name f, destination_name self k)
            = Some (copy_u_sum X es N).
Proof.
  intros Hg Hu.
  destruct (step_frame_trans f f _ _ _ (gather_frame _ _ _ _ Hg)
              (update_frame _ _ _ _ Hu)) as (Hn & He & Hd).
  apply gather_inv in Hg as (N & HN & _ & _ & Hother & _ & Hslots).
  apply update_inv in Hu as (r & slots & y & _ & _ & _ & _ & ->).
  split; [done|]. split; [done|]. split; [intros key ?; by apply Hd|].
  cbn [ndata]. split; [|split].
  - intros key Hk1 Hk2. rewrite lookup_insert_ne by done. by apply Hother.
  - rewrite lookup_insert_eq. by eexists.
  - intros N' k HN' HN0 Hk Hne. assert (N' = N) as -> by congruence.
    destruct (Hslots HN0 k Hk) as (X & es & HX & Hes & Ht).
    exists X, es. split; [done|]. split; [done|].
    rewrite lookup_insert_ne by congruence. done.
Qed.

End forward_lemmas.

Section forward_claims.
Context {R : Type} `{Scalar R}.
Implicit Types (g : DGLHeteroGraph R) (self : AtomToFactor R).


Lemma factor_name_ne (f f' : factor_type) :
  f ≠ f' → factor_name f ≠ factor_name f'.
Proof. intros Hne Heq. by apply Hne, factor_name_inj. Qed.


(** C10 (as amended).  After one update layer returns, every factor
    instance still carries, under each slot buffer name msg_dest_name[k]
    that is not the destination key itself, the slot-k feature gathered
    from the atoms: the buffers are not removed when the update
    completes. *)
Theorem forward_leaves_slot_buffers self g g' (f : factor_type)
    (N k i : nat) :
  forward self g = Return g' →
  num_nodes g !! factor_name f = Some N →
  k < arity f → i < N →
  updated_repr_name self ≠ destination_name self k →
  ∃ X es t,
    ndata g !! ("atom", msg_src_name self) = Some X
    ∧ edges g !! ("atom", in_label k, factor_name f) = Some es
    ∧ ndata g' !! (factor_name f, destination_name self k) = Some t
    ∧ nrows t = N
    ∧ rows t !! i = Some (vsum (ncols X) (messages_into es X i)).
Proof.
  intros (g1 & g2 & g3 & g4 & g5 & Hg1 & Hu1 & Hg2 & Hu2 & Hg3 & Hu3)
    %forward_inv HN Hk Hi Hne.
  destruct (gather_update_inv _ _ _ _ _ Hg1 Hu1)
    as (Hn1 & He1 & Hd1 & _ & _ & Hb1).
  destruct (gather_update_inv _ _ _ _ _ Hg2 Hu2)
    as (Hn2 & He2 & Hd2 & _ & _ & Hb2).
  destruct (gather_update_inv _ _ _ _ _ Hg3 Hu3)
    as (Hn3 & He3 & Hd3 & _ & _ & Hb3).
  assert (∃ X es,
    ndata g !! ("atom", msg_src_name self) = Some X
    ∧ edges g !! ("atom", in_label k, factor_name f) = Some es
    ∧ ndata g' !! (factor_name f, destination_name self k)
        = Some (copy_u_sum X es N)) as (X & es & HX & Hes & Ht).
  { destruct f.
    - destruct (Hb1 N k HN ltac:(lia) Hk Hne) as (X & es & HX & Hes & Ht).
      exists X, es. split; [done|]. split; [done|].
      rewrite Hd3, Hd2 by done. done.
    - destruct (Hb2 N k ltac:(by rewrite Hn1) ltac:(lia) Hk Hne)
        as (X & es & HX & Hes & Ht).
      exists X, es. rewrite Hd1 in HX by done. rewrite He1 in Hes.
      split; [done|]. split; [done|]. rewrite Hd3 by done. done.
    - destruct (Hb3 N k ltac:(by rewrite Hn2, Hn1) ltac:(lia) Hk Hne)
        as (X & es & HX & Hes & Ht).
      exists X, es. rewrite Hd2, Hd1 in HX by done.
      rewrite He2, He1 in Hes. done. }
  exists X, es, (copy_u_sum X es N).
  split; [done|]. split; [done|]. split; [done|].
  split; [apply nrows_copy_u_sum | by apply copy_u_sum_lookup].
Qed.


End forward_claims.



Lemma forward_leaves_slot_buffers_witness :
  forward factor_net chain_graph = Return chain_updated
  ∧ num_nodes chain_graph !! "torsion" = Some 1
  ∧ updated_repr_name factor_net ≠ destination_name factor_net 3
  ∧ ∃ t, ndata chain_updated !! ("torsion", "element[3]") = Some t
       ∧ nrows t = 1
       ∧ rows t !! 0 = Some [0; 0; 1; 0]%Z.
Proof.
  assert (forward factor_net chain_graph = Return chain_updated) as Hfw
    by (vm_compute; reflexivity).
  assert (num_nodes chain_graph !! factor_name torsion = Some 1) as HN
    by (vm_compute; reflexivity).
  assert (updated_repr_name factor_net ≠ destination_name factor_net 3)
    as Hne by discriminate.
  split; [exact Hfw|]. split; [exact HN|]. split; [exact Hne|].
  destruct (forward_leaves_slot_buffers factor_net chain_graph chain_updated
              torsion 1 3 0 Hfw HN ltac:(simpl; lia) ltac:(lia) Hne)
    as (X & es & t & HX & Hes & Ht & Hrows & Hrow).
  exists t. split; [exact Ht|]. split; [exact Hrows|].
  rewrite Hrow. vm_compute in HX. injection HX as <-.
  vm_compute in Hes. injection Hes as <-. vm_compute. reflexivity.
Defined.

(** C10, as stated, fails: when the destination key is the name of a slot
    buffer, that buffer holds the updated representation after the layer,
    not the gathered slot feature. *)
Lemma slot_buffer_overwritten_by_update :
  ∃ g' X es t,
    AtomToFactor_init "element" "m" "initial_representation" "m[0]"
      ATOM_DIM default_initial_factor_dims default_updated_factor_dims
      example_params example_params example_params = Return clashing_net
    ∧ forward clashing_net chain_graph = Return g'
    ∧ destination_name clashing_net 0 = "m[0]"
    ∧ ndata chain_graph !! ("atom", msg_src_name clashing_net) = Some X
    ∧ edges chain_graph !! ("atom", in_label 0, "bond") = Some es
    ∧ ndata g' !! ("bond", destination_name clashing_net 0) = Some t
    ∧ ncols t = 10
    ∧ rows t !! 0 ≠ Some (vsum (ncols X) (messages_into es X 0)).
Proof.
  eexists _, _, _, _. split; [reflexivity|].
  split; [vm_compute; reflexivity|]. split; [reflexivity|].
  split; [vm_compute; reflexivity|]. split; [vm_compute; reflexivity|].
  split; [vm_compute; reflexivity|]. split; [reflexivity|].
  vm_compute. discriminate.
Qed.


(* ===================================================================== *)
(** ** The dataset adapter *)
(* ===================================================================== *)

Section get_graph_claim.
Context {Collection RecordT Entry Mol Snapshot Array Feature Graph : Type}.
Variable get_record : Collection → string → res RecordT.
Variable get_entry : Collection → string → res Entry.
Variable from_qcschema : Entry → res Mol.
Variable get_trajectory : RecordT → res (option (list Snapshot)).
Variable esp_Graph : Mol → res Graph.
Variable graph_set_data : Graph → string → string → Feature → res Graph.
Variable scf_total_energy : Snapshot → res Array.
Variable geometry : Snapshot → res Array.
Variable return_result : Snapshot → res Array.
Variable shape : Array → list nat.
Variable energy_tensor : list Array → Feature.
Variable stacked_tensor : list Array → Feature.

Local Abbreviation fetch := (get_graph get_record get_entry from_qcschema
  get_trajectory esp_Graph graph_set_data scf_total_energy geometry
  return_result shape energy_tensor stacked_tensor).

(** C8 (as amended).  For a record whose record, entry and molecule are
    obtained, the fetch returns None (and raises nothing) exactly when
    retrieving the trajectory raises or yields None.  With a trajectory
    present it never returns None: it returns a graph when the trajectory
    is not empty and the collaborators' steps succeed, and it raises when
    the trajectory is empty, which numpy cannot stack. *)
Theorem get_graph_outcomes (collection : Collection) (record_name : string)
    (record : RecordT) (entry : Entry) (mol : Mol) :
  get_record collection record_name = Return record →
  get_entry collection record_name = Return entry →
  from_qcschema entry = Return mol →
  (fetch collection record_name = Return None
     ↔ raises (get_trajectory record) ∨ get_trajectory record = Return None)
  ∧ (get_trajectory record = Return (Some []) →
       raises (fetch collection record_name))
  ∧ (∀ trajectory g0 energies g1 geometries g2 gradients g3,
       get_trajectory record = Return (Some trajectory) →
       esp_Graph mol = Return g0 →
       mapM scf_total_energy trajectory = Return energies →
       graph_set_data g0 "g" "u_ref" (energy_tensor energies) = Return g1 →
       mapM geometry trajectory = Return geometries →
       np_stack shape geometries = Return geometries →
       graph_set_data g1 "n1" "xyz" (stacked_tensor geometries)
         = Return g2 →
       mapM return_result trajectory = Return gradients →
       torch_stack shape gradients = Return gradients →
       graph_set_data g2 "n1" "u_ref_prime" (stacked_tensor gradients)
         = Return g3 →
       trajectory ≠ []
       ∧ fetch collection record_name = Return (Some g3)).
Proof.
  intros Hrec Hent Hmol. unfold get_graph, usable_trajectory.
  rewrite Hrec, Hent. cbn [mbind res_bind]. rewrite Hmol.
  cbn [mbind res_bind]. split; [|split].
  - destruct (get_trajectory record) as [[trajectory|]|e] eqn:Htraj.
    + split; [|intros [[? ?]|?]; done].
      destruct (esp_Graph mol); cbn [mbind res_bind]; [|done].
      destruct (mapM scf_total_energy _); cbn [mbind res_bind]; [|done].
      destruct (graph_set_data _ _ _ _); cbn [mbind res_bind]; [|done].
      destruct (mapM geometry _); cbn [mbind res_bind]; [|done].
      destruct (np_stack _ _); cbn [mbind res_bind]; [|done].
      destruct (graph_set_data _ _ _ _); cbn [mbind res_bind]; [|done].
      destruct (mapM return_result _); cbn [mbind res_bind]; [|done].
      destruct (torch_stack _ _); cbn [mbind res_bind]; [|done].
      by destruct (graph_set_data _ _ _ _).
    + split; [by right | done].
    + split; [intros _; left; by eexists | done].
  - intros ->. simpl.
    destruct (esp_Graph mol); cbn [mbind res_bind]; [|by eexists].
    destruct (graph_set_data _ _ _ _); cbn [mbind res_bind]; by eexists.
  - intros trajectory g0 energies g1 geometries g2 gradients g3
      -> Hg0 Hen Hg1 Hgeo Hst Hg2 Hgr Hts Hg3.
    rewrite Hg0. cbn [mbind res_bind]. rewrite Hen. cbn [mbind res_bind].
    rewrite Hg1. cbn [mbind res_bind]. rewrite Hgeo. cbn [mbind res_bind].
    rewrite Hst. cbn [mbind res_bind]. rewrite Hg2. cbn [mbind res_bind].
    rewrite Hgr. cbn [mbind res_bind]. rewrite Hts. cbn [mbind res_bind].
    rewrite Hg3. split; [|done].
    intros ->. simpl in Hgeo. injection Hgeo as <-. done.
Qed.

End get_graph_claim.

Lemma get_graph_outcomes_witness :
  fetch_with_trajectory None = Return None
  ∧ fetch_with_trajectory (Some [7; 9])
      = Return (Some ["u_ref"; "xyz"; "u_ref_prime"]).
Proof.
  pose proof (get_graph_outcomes (Collection := unit) (Snapshot := nat)
    (λ _ _, Return tt) (λ _ _, Return tt) (λ _, Return tt)
    (λ _, Return None) (λ _, Return [])
    (λ g _ name _, Return (g ++ [name]))
    (λ s, Return s) (λ s, Return s) (λ s, Return s)
    (λ _, [3]) (λ l, l) (λ l, l)
    tt "record" tt tt tt eq_refl eq_refl eq_refl) as (Hnone & _ & _).
  pose proof (get_graph_outcomes (Collection := unit) (Snapshot := nat)
    (λ _ _, Return tt) (λ _ _, Return tt) (λ _, Return tt)
    (λ _, Return (Some [7; 9])) (λ _, Return [])
    (λ g _ name _, Return (g ++ [name]))
    (λ s, Return s) (λ s, Return s) (λ s, Return s)
    (λ _, [3]) (λ l, l) (λ l, l)
    tt "record" tt tt tt eq_refl eq_refl eq_refl) as (_ & _ & Hsome).
  split.
  - apply Hnone. right. reflexivity.
  - apply (Hsome [7; 9] [] [7; 9] ["u_ref"] [7; 9] ["u_ref"; "xyz"] [7; 9]
             ["u_ref"; "xyz"; "u_ref_prime"]); reflexivity.
Defined.

(** C8, as stated, fails: a record whose trajectory is retrieved and is the
    empty list is neither absent nor unreadable, and the fetch returns no
    graph for it: it raises numpy's [ValueError]. *)
Lemma empty_trajectory_raises :
  fetch_with_trajectory (Some [])
    = Raise (ValueError "need at least one array to stack")
  ∧ ¬ (∃ g, fetch_with_trajectory (Some []) = Return (Some g)).
Proof.
  split; [reflexivity|]. intros [g Hg]. discriminate Hg.
Qed.
(* ===================================================================== *)
(** ** Energy and gradient of a snapshot *)
(* ===================================================================== *)

Section energy_and_gradient.
Context {R : Type}.
Implicit Types (d : gmap string (gmap string (QCVars R))).

Lemma reshape_rows_length (n m : nat) (l : list R) :
  n * m ≤ length l →
  Forall (λ r, length r = m) (reshape (replicate n m) l).
Proof.
  revert l. induction n as [|n IH]; intros l Hl; simpl; [constructor|].
  constructor.
  - rewrite length_take. lia.
  - apply IH. rewrite length_drop. lia.
Qed.

(** X1.  On a result whose QC variables hold an energy and a flat
    gradient of 3*n numbers, [get_energy_and_gradient] returns the energy
    unchanged and the gradient as n rows of 3: entry (i, j) is entry
    3*i + j of the flat gradient, and joining the rows gives the flat
    gradient back. *)
Theorem get_energy_and_gradient_reshapes d extras qcvars (energy : R)
    (flat : list R) (n : nat) :
  d !! "extras" = Some extras →
  extras !! "qcvars" = Some qcvars →
  qc_numbers qcvars !! "CURRENT ENERGY" = Some energy →
  qc_arrays qcvars !! "CURRENT GRADIENT" = Some flat →
  length flat = 3 * n →
  ∃ gradient,
    get_energy_and_gradient d = Return (energy, gradient)
    ∧ ncols gradient = 3 ∧ nrows gradient = n ∧ tensor_wf gradient
    ∧ mjoin (rows gradient) = flat
    ∧ ∀ i j r, rows gradient !! i = Some r → j < 3 →
        r !! j = flat !! (3 * i + j).
Proof.
  intros Hd He Hen Hfl Hlen. unfold get_energy_and_gradient, dict_getitem.
  rewrite Hd. cbn [mbind res_bind]. rewrite He. cbn [mbind res_bind].
  rewrite Hen. cbn [mbind res_bind]. rewrite Hfl. cbn [mbind res_bind].
  assert (length flat `div` 3 = n) as ->.
  { rewrite Hlen, Nat.mul_comm. by apply Nat.div_mul. }
  unfold np_reshape. rewrite decide_True by lia. cbn [mbind res_bind].
  eexists. split; [done|]. cbn [ncols rows]. unfold nrows. cbn [rows].
  split; [done|]. split; [by rewrite length_reshape, length_replicate|].
  split; [apply reshape_rows_length; lia|]. split.
  - apply join_reshape. rewrite sum_list_replicate. lia.
  - intros i j r Hr Hj. rewrite sublist_lookup_reshape in Hr.
    + unfold sublist_lookup in Hr. case_guard; simplify_eq/=.
      rewrite lookup_take_lt by done. rewrite lookup_drop. f_equal. lia.
    + lia.
    + lia.
Qed.

(** X2.  [get_energy_and_gradient] raises [KeyError] for the first of
    'extras', 'qcvars', 'CURRENT ENERGY', 'CURRENT GRADIENT' that is
    missing, and [ValueError] when the length of the flat gradient is not a
    multiple of 3 (no component is dropped silently); otherwise it
    returns. *)
Theorem get_energy_and_gradient_errors d :
  (d !! "extras" = None →
     get_energy_and_gradient d = Raise (KeyError "extras"))
  ∧ (∀ extras, d !! "extras" = Some extras →
     (extras !! "qcvars" = None →
        get_energy_and_gradient d = Raise (KeyError "qcvars"))
     ∧ ∀ qcvars, extras !! "qcvars" = Some qcvars →
       (qc_numbers qcvars !! "CURRENT ENERGY" = None →
          get_energy_and_gradient d = Raise (KeyError "CURRENT ENERGY"))
       ∧ (is_Some (qc_numbers qcvars !! "CURRENT ENERGY") →
          (qc_arrays qcvars !! "CURRENT GRADIENT" = None →
             get_energy_and_gradient d
               = Raise (KeyError "CURRENT GRADIENT"))
          ∧ ∀ flat, qc_arrays qcvars !! "CURRENT GRADIENT" = Some flat →
            (length flat `mod` 3 ≠ 0 →
               get_energy_and_gradient d
                 = Raise (ValueError "cannot reshape array into shape"))
            ∧ (length flat `mod` 3 = 0 →
               returns (get_energy_and_gradient d)))).
Proof.
  unfold get_energy_and_gradient, dict_getitem. split.
  { by intros ->. }
  intros extras ->. cbn [mbind res_bind]. split; [by intros ->|].
  intros qcvars ->. cbn [mbind res_bind]. split; [by intros ->|].
  intros [energy ->]. cbn [mbind res_bind]. split; [by intros ->|].
  intros flat ->. cbn [mbind res_bind]. unfold np_reshape.
  pose proof (Nat.div_mod_eq (length flat) 3) as Hdm. split.
  - intros Hmod. rewrite decide_False by lia. done.
  - intros Hmod. rewrite decide_True by lia. by eexists.
Qed.

End energy_and_gradient.

Lemma get_energy_and_gradient_reshapes_witness :
  ∃ gradient,
    get_energy_and_gradient (result_dict (-7)%Z [1; 2; 3; 4; 5; 6]%Z)
      = Return ((-7)%Z, gradient)
    ∧ rows gradient = [[1; 2; 3]; [4; 5; 6]]%Z.
Proof.
  destruct (get_energy_and_gradient_reshapes
              (result_dict (-7)%Z [1; 2; 3; 4; 5; 6]%Z) _ _ (-7)%Z
              [1; 2; 3; 4; 5; 6]%Z 2 eq_refl eq_refl eq_refl eq_refl eq_refl)
    as (gradient & Hret & _ & _ & _ & _ & _).
  exists gradient. split; [exact Hret|].
  vm_compute in Hret. injection Hret as <-. reflexivity.
Defined.

Lemma get_energy_and_gradient_errors_witness :
  get_energy_and_gradient (result_dict 0%Z [1; 2; 3; 4]%Z)
    = Raise (ValueError "cannot reshape array into shape")
  ∧ get_energy_and_gradient (R := Z) ∅ = Raise (KeyError "extras").
Proof.
  split.
  - destruct (get_energy_and_gradient_errors
                (result_dict 0%Z [1; 2; 3; 4]%Z)) as [_ Hd].
    destruct (Hd _ eq_refl) as [_ He]. destruct (He _ eq_refl) as [_ Hq].
    destruct (Hq ltac:(by eexists)) as [_ Hg].
    destruct (Hg _ eq_refl) as [Hbad _]. apply Hbad. vm_compute. lia.
  - apply (get_energy_and_gradient_errors (R := Z) ∅). reflexivity.
Defined.

(* ===================================================================== *)
(** ** More on the edge dictionaries and the initial features *)
(* ===================================================================== *)

Lemma bind_blocks_lookup {A} (h : nat → list A) (c : nat) (ks : list nat)
    (j k i : nat) :
  (∀ k', length (h k') = c) →
  ks !! j = Some k → i < c →
  (ks ≫= h) !! (j * c + i) = h k !! i.
Proof.
  intros Hlen. revert j. induction ks as [|k0 ks IH]; intros j Hj Hi.
  - by rewrite lookup_nil in Hj.
  - rewrite bind_cons. destruct j as [|j]; simpl in Hj.
    + injection Hj as ->. simpl. apply lookup_app_l. by rewrite Hlen.
    + rewrite lookup_app_r by (rewrite Hlen; lia). rewrite Hlen.
      replace (S j * c + i - c) with (j * c + i) by lia. by apply IH.
Qed.

Lemma length_bind_blocks {A} (h : nat → list A) (c : nat) (ks : list nat) :
  (∀ k', length (h k') = c) → length (ks ≫= h) = length ks * c.
Proof.
  intros Hlen. induction ks as [|k0 ks IH]; [done|].
  rewrite bind_cons, length_app, Hlen, IH. simpl. lia.
Qed.

Lemma factor_reverse_edges_eq offmol f :
  ∃ h : nat → list (nat * nat),
    factor_reverse_edges offmol f = seq 0 (arity f) ≫= h
    ∧ (∀ k, length (h k) = factor_count offmol f)
    ∧ ∀ k i, h k !! i = (λ u, (i, u)) <$> slot_atom offmol f i k.
Proof.
  destruct f; eexists (reverse_edges _ _);
    (split; [reflexivity|]); unfold reverse_edges, factor_count, slot_atom,
      bond_tuples, angle_tuples, torsion_tuples;
    (split; [intros k; by rewrite length_imap, length_fmap|]);
    intros k i; rewrite list_lookup_imap; by destruct (_ !! i).
Qed.

(** X3.  Each of the three dictionary builders also fills the reverse
    relation (factor, contains, atom): for an arity-n factor type with c
    tuples it holds n*c edges, slot after slot and tuple after tuple, the
    edge at position k*c + i going from factor node i to the slot-k atom
    of tuple i; it is the mirror image of the n forward relations.  The
    dictionary has no other keys than these n + 1. *)
Theorem reverse_relation_mirrors_forward (offmol : Molecule)
    (f : factor_type) :
  ∃ es,
    factor_dict offmol f !! (factor_name f, "contains", "atom") = Some es
    ∧ length es = arity f * factor_count offmol f
    ∧ (∀ k i u, k < arity f → slot_atom offmol f i k = Some u →
         es !! (k * factor_count offmol f + i) = Some (i, u))
    ∧ (∀ i u, (i, u) ∈ es ↔
         ∃ k fwd, k < arity f
           ∧ factor_dict offmol f !! ("atom", in_label k, factor_name f)
               = Some fwd
           ∧ (u, i) ∈ fwd)
    ∧ ∀ key, is_Some (factor_dict offmol f !! key) ↔
        key = (factor_name f, "contains", "atom")
        ∨ ∃ k, k < arity f ∧ key = ("atom", in_label k, factor_name f).
Proof.
  exists (factor_reverse_edges offmol f).
  split; [apply factor_dict_reverse|].
  destruct (factor_reverse_edges_eq offmol f) as (h & Heq & Hlen & Hh).
  split; [|split; [|split]].
  - rewrite Heq, (length_bind_blocks h _ _ Hlen). by rewrite length_seq.
  - intros k i u Hk Hu. rewrite Heq.
    rewrite (bind_blocks_lookup h _ _ k k i Hlen).
    + by rewrite Hh, Hu.
    + by apply lookup_seq_lt.
    + apply (slot_atom_is_Some offmol f i k). by eexists.
  - intros i u. rewrite elem_of_factor_reverse_edges. simpl. split.
    + intros (k & Hk & Hu). exists k, (factor_forward_edges offmol f k).
      split; [done|]. split; [by apply factor_dict_forward|].
      by apply elem_of_factor_forward_edges.
    + intros (k & fwd & Hk & Hfwd & Hin). exists k. split; [done|].
      change ("atom", in_label k, factor_name f)
        with (forward_etype (factor_name f) k) in Hfwd.
      rewrite factor_dict_forward in Hfwd by done. injection Hfwd as <-.
      by apply elem_of_factor_forward_edges in Hin.
  - intros key. split.
    + intros [es [(k & Hk & -> & _)|[-> _]]%factor_dict_inv].
      * right. by exists k.
      * by left.
    + intros [->|(k & Hk & ->)].
      * eexists. apply factor_dict_reverse.
      * eexists. by apply factor_dict_forward.
Qed.

Section initial_features.
Context {R : Type} `{Scalar R}.

Lemma features_consistent_initial (offmol : Molecule) :
  atom_indices_consistent offmol →
  features_consistent (R := R)
    (mkGraph (num_nodes (dgl_heterograph (R := R) (data_dict_of offmol)))
       (data_dict_of offmol) (initial_ndata offmol)).
Proof.
  intros Hcons. unfold features_consistent, initial_ndata. cbn [ndata].
  pose proof (λ f, num_nodes_heterograph (R := R) _ _
                     (node_types_factor offmol f)) as Hfac.
  pose proof (num_nodes_heterograph (R := R) _ _ (node_types_atom offmol))
    as Hatom.
  rewrite infer_num_nodes_atom, Hcons in Hatom.
  repeat apply map_Forall_insert_2; [..|apply map_Forall_empty];
    cbn [fst num_nodes].
  - rewrite nrows_torch_zeros. specialize (Hfac torsion).
    by rewrite infer_num_nodes_factor in Hfac.
  - rewrite nrows_torch_zeros. specialize (Hfac angle).
    by rewrite infer_num_nodes_factor in Hfac.
  - rewrite nrows_torch_zeros. specialize (Hfac bond).
    by rewrite infer_num_nodes_factor in Hfac.
  - by rewrite nrows_one_hot_elements, length_fmap.
Qed.

(** X4.  The graph [offmol_to_heterograph] returns carries exactly four
    features: on the atoms, "element" with one row per atom of the
    molecule, row i being the one-hot row of atom i; on the bonds, angles
    and torsions, "initial_representation", one row [0] per factor
    instance.  Every feature has as many rows as its node type has nodes,
    and the atom node count is the number of atoms. *)
Theorem offmol_to_heterograph_features (offmol : Molecule)
    (g : DGLHeteroGraph R) :
  offmol_to_heterograph offmol = Return g →
  num_nodes g !! "atom" = Some (length (atoms offmol))
  ∧ features_consistent g
  ∧ (∃ t, ndata g !! ("atom", "element") = Some t
      ∧ ncols t = (if atoms offmol is [] then 0 else 4)
      ∧ rows t = (λ a, element_row (atomic_number a)) <$> atoms offmol)
  ∧ (∀ f, ndata g !! (factor_name f, "initial_representation")
            = Some (mkTensor 1 (replicate (factor_count offmol f) [Rzero])))
  ∧ ∀ key, is_Some (ndata g !! key) ↔
      key = ("atom", "element")
      ∨ ∃ f, key = (factor_name f, "initial_representation").
Proof.
  rewrite offmol_to_heterograph_eq. case_decide as Hcons; [|done].
  intros [= <-]. cbn [num_nodes ndata].
  split; [|split; [by apply features_consistent_initial|split; [|split]]].
  - pose proof (num_nodes_heterograph (R := R) _ _ (node_types_atom offmol))
      as Hatom.
    rewrite infer_num_nodes_atom, Hcons in Hatom. exact Hatom.
  - eexists. unfold initial_ndata.
    rewrite !lookup_insert_ne by done. rewrite lookup_insert_eq.
    split; [done|]. split.
    + unfold one_hot_elements, torch_tensor. cbn [ncols].
      by destruct (atoms offmol).
    + rewrite one_hot_elements_rows. by rewrite <-list_fmap_compose.
  - intros []; unfold initial_ndata; cbn [factor_name];
      rewrite ?lookup_insert_ne by done; by rewrite lookup_insert_eq.
  - intros key. unfold initial_ndata.
    rewrite !lookup_insert_is_Some, lookup_empty, is_Some_alt. split.
    + intros [<-|[_ [<-|[_ [<-|[_ [<-|[_ []]]]]]]]];
        [right; by exists torsion|right; by exists angle
        |right; by exists bond|by left].
    + intros [->|[[] ->]]; cbn [factor_name]; naive_solver.
Qed.

(** X5.  Two atoms get the same element row exactly when they have the
    same atomic number or both lie outside the vocabulary: atoms of
    unsupported elements cannot be told apart (nor from one another). *)
Theorem element_rows_collide_outside_vocabulary (z1 z2 : Z) :
  Rone ≠ (Rzero : R) →
  (one_hot_elements (R := R) [z1] = one_hot_elements [z2]
   ↔ z1 = z2
     ∨ ((z1 ∉ allowable_atomic_numbers) ∧ (z2 ∉ allowable_atomic_numbers))).
Proof.
  intros H10. unfold one_hot_elements, torch_tensor, allowable_atomic_numbers.
  simpl. rewrite !elem_of_cons, !elem_of_nil. split.
  - intros [= H8 H1 H6 H7]. unfold float_of_bool in *.
    repeat case_bool_decide; simplify_eq; try (by left); try lia;
      right; lia.
  - intros [->|[Hn1 Hn2]]; [done|].
    rewrite !bool_decide_eq_false_2 by tauto. done.
Qed.

End initial_features.

Lemma offmol_to_heterograph_features_witness :
  offmol_to_heterograph (R := Z) chain = Return chain_graph
  ∧ num_nodes chain_graph !! "atom" = Some 4
  ∧ ndata chain_graph !! ("angle", "initial_representation")
      = Some (mkTensor 1 [[0]; [0]]%Z).
Proof.
  assert (offmol_to_heterograph (R := Z) chain = Return chain_graph) as Hg
    by (vm_compute; reflexivity).
  destruct (offmol_to_heterograph_features chain chain_graph Hg)
    as (Hn & _ & _ & Hinit & _).
  split; [exact Hg|]. split; [exact Hn|]. exact (Hinit angle).
Defined.

Lemma element_rows_collide_outside_vocabulary_witness :
  Rone ≠ (Rzero : Z)
  ∧ one_hot_elements (R := Z) [9%Z] = one_hot_elements [17%Z]
  ∧ one_hot_elements (R := Z) [6%Z] ≠ one_hot_elements [7%Z].
Proof.
  assert (Rone ≠ (Rzero : Z)) as H10 by discriminate.
  split; [exact H10|]. split.
  - apply (element_rows_collide_outside_vocabulary (R := Z) 9 17 H10).
    right. unfold allowable_atomic_numbers.
    rewrite !elem_of_cons, !elem_of_nil. lia.
  - intros Heq.
    apply (element_rows_collide_outside_vocabulary (R := Z) 6 7 H10) in Heq.
    destruct Heq as [Heq|[Hn _]]; [discriminate Heq|].
    apply Hn. vm_compute. repeat first
      [apply list_elem_of_here | apply list_elem_of_further].
Defined.

(* ===================================================================== *)
(** ** More on the network, the constructor and the update step *)
(* ===================================================================== *)

Section network_extras.
Context {R : Type} `{Scalar R}.
Implicit Types (g : DGLHeteroGraph R) (self : AtomToFactor R).

Lemma length_Linear_row (l : Linear R) (r : list R) :
  length (Linear_row l r) = out_features l.
Proof. unfold Linear_row. by rewrite length_fmap, length_seq. Qed.

Lemma length_MLP_row (F : MLP R) (r : list R) :
  length (MLP_row F r) = out_features (fc3 F).
Proof. unfold MLP_row. apply length_Linear_row. Qed.

(** X6.  An [MLP] built for [i] inputs and [o] outputs accepts exactly the
    tensors of width [i] and raises torch's shape error on any other; its
    result has width [o] and as many rows as the input, and it works row
    by row: row j of the result depends on row j of the input only, and
    the result on two batches stacked is the two results stacked. *)
Theorem MLP_forward_rowwise (i o : nat) (p : MLPParams R) (x : Tensor R) :
  (returns (MLP_forward (MLP_init i o p) x) ↔ ncols x = i)
  ∧ (ncols x ≠ i → MLP_forward (MLP_init i o p) x = Raise shape_error)
  ∧ ∀ y, MLP_forward (MLP_init i o p) x = Return y →
      ncols y = o ∧ nrows y = nrows x ∧ tensor_wf y
      ∧ (∀ x' y' j, MLP_forward (MLP_init i o p) x' = Return y' →
           rows x' !! j = rows x !! j → rows y' !! j = rows y !! j)
      ∧ (∀ x' y', MLP_forward (MLP_init i o p) x' = Return y' →
           MLP_forward (MLP_init i o p) (mkTensor i (rows x ++ rows x'))
             = Return (mkTensor o (rows y ++ rows y'))).
Proof.
  pose proof (MLP_init_accepts i o p) as Hacc.
  split; [|split].
  - rewrite MLP_forward_eq. case_decide as Ha; rewrite Hacc in Ha.
    + split; [done|]. intros _. by eexists.
    + split; [by intros [? ?]|done].
  - intros Hne. rewrite MLP_forward_eq.
    rewrite decide_False; [done|]. by rewrite Hacc.
  - intros y. rewrite MLP_forward_eq. case_decide; [|done].
    intros [= <-]. cbn [ncols rows]. unfold nrows. cbn [rows].
    split; [done|]. split; [by rewrite length_fmap|]. split; [|split].
    + unfold tensor_wf. cbn [ncols rows]. apply Forall_fmap, Forall_true.
      intros r. apply length_MLP_row.
    + intros x' y' j. rewrite MLP_forward_eq. case_decide; [|done].
      intros [= <-] Hj. cbn [rows]. by rewrite !list_lookup_fmap, Hj.
    + intros x' y'. rewrite !MLP_forward_eq. case_decide; [|done].
      intros [= <-]. cbn [ncols rows].
      rewrite decide_True by (by apply Hacc). by rewrite fmap_app.
Qed.

(** X7.  [AtomToFactor.__init__] returns exactly when both dimension
    dictionaries have an entry for 'bond', 'angle' and 'torsion', and
    raises [KeyError] otherwise; the transform it returns keeps the four
    names and, for each factor type of arity n, has a network with
    atom_dim*n + initial_factor_dims[factor] inputs, two hidden layers of
    64 units and updated_factor_dims[factor] outputs. *)
Theorem AtomToFactor_init_networks (msg_src msg_dest cur upd : string)
    (d : nat) (idims udims : gmap string nat) (pb pa pt : MLPParams R) :
  (returns (AtomToFactor_init msg_src msg_dest cur upd d idims udims
              pb pa pt)
     ↔ ∀ f, is_Some (idims !! factor_name f)
            ∧ is_Some (udims !! factor_name f))
  ∧ (¬ returns (AtomToFactor_init msg_src msg_dest cur upd d idims udims
                  pb pa pt) →
       ∃ key, AtomToFactor_init msg_src msg_dest cur upd d idims udims
                pb pa pt = Raise (KeyError key)
              ∧ (idims !! key = None ∨ udims !! key = None))
  ∧ ∀ self, AtomToFactor_init msg_src msg_dest cur upd d idims udims
              pb pa pt = Return self →
      msg_src_name self = msg_src ∧ msg_dest_name self = msg_dest
      ∧ current_repr_name self = cur ∧ updated_repr_name self = upd
      ∧ ∀ f, ∃ c u,
          idims !! factor_name f = Some c ∧ udims !! factor_name f = Some u
          ∧ in_features (fc1 (network f self)) = d * arity f + c
          ∧ out_features (fc1 (network f self)) = 64
          ∧ in_features (fc2 (network f self)) = 64
          ∧ out_features (fc2 (network f self)) = 64
          ∧ in_features (fc3 (network f self)) = 64
          ∧ out_features (fc3 (network f self)) = u.
Proof.
  split; [|split].
  - split.
    + intros [self Hself] f.
      destruct (AtomToFactor_init_inv _ _ _ _ _ _ _ _ _ _ _ f Hself)
        as (_ & _ & _ & _ & _ & c & u & p & Hc & Hu & _).
      split; by eexists.
    + intros Hall. unfold AtomToFactor_init, dims_get.
      destruct (Hall bond) as [[? Hib] [? Hub]].
      destruct (Hall angle) as [[? Hia] [? Hua]].
      destruct (Hall torsion) as [[? Hit] [? Hut]].
      cbn [factor_name] in *.
      rewrite Hib, Hub, Hia, Hua, Hit, Hut. by eexists.
  - intros Hnot. unfold AtomToFactor_init, dims_get in *.
    destruct (idims !! "bond") eqn:Hib; [|by eauto].
    destruct (udims !! "bond") eqn:Hub; [|by eauto].
    destruct (idims !! "angle") eqn:Hia; [|by eauto].
    destruct (udims !! "angle") eqn:Hua; [|by eauto].
    destruct (idims !! "torsion") eqn:Hit; [|by eauto].
    destruct (udims !! "torsion") eqn:Hut; [|by eauto].
    destruct Hnot. by eexists.
  - intros self Hself.
    destruct (AtomToFactor_init_inv _ _ _ _ _ _ _ _ _ _ _ bond Hself)
      as (? & ? & ? & ? & _).
    do 4 (split; [done|]). intros f.
    destruct (AtomToFactor_init_inv _ _ _ _ _ _ _ _ _ _ _ f Hself)
      as (_ & _ & _ & _ & _ & c & u & p & Hc & Hu & ->).
    exists c, u. by repeat split.
Qed.

Lemma mapM_res_first_error {A B} (h : A → res B) (l1 l2 : list A) (x : A)
    (e : exn) :
  Forall (λ a, returns (h a)) l1 → h x = Raise e →
  mapM h (l1 ++ x :: l2) = Raise e.
Proof.
  intros Hl1 Hx. induction Hl1 as [|a l1 [b Hb] _ IH]; simpl.
  - by rewrite Hx.
  - rewrite Hb. cbn [mbind res_bind]. by rewrite IH.
Qed.

(** X8.  The update step reads before it computes: it raises [KeyError]
    with the name of the current representation when the factor nodes do
    not carry it, and otherwise [KeyError] with the name of the first slot
    buffer msg_dest_name[k] that is missing, so it cannot run before the
    gather step has filled the n buffers. *)
Theorem update_requires_gathered_slots (f : factor_type) self g :
  (ndata g !! (factor_name f, current_repr_name self) = None →
     update f self g = Raise (KeyError (current_repr_name self)))
  ∧ ∀ k,
      is_Some (ndata g !! (factor_name f, current_repr_name self)) →
      k < arity f →
      (∀ j, j < k →
         is_Some (ndata g !! (factor_name f, destination_name self j))) →
      ndata g !! (factor_name f, destination_name self k) = None →
      update f self g = Raise (KeyError (destination_name self k)).
Proof.
  split.
  - intros Hcur. rewrite update_eq. unfold get_ndata. by rewrite Hcur.
  - intros k [r Hr] Hk Hbefore Hmiss. rewrite update_eq.
    unfold get_ndata at 1. rewrite Hr. cbn [mbind res_bind].
    unfold read_slots.
    replace (seq 0 (arity f))
      with (seq 0 k ++ k :: seq (S k) (arity f - S k)); last first.
    { change (k :: seq (S k) (arity f - S k))
        with (seq (0 + k) (S (arity f - S k))).
      rewrite <-seq_app. f_equal. lia. }
    rewrite (mapM_res_first_error _ _ _ _ (KeyError (destination_name self k)));
      [done| |].
    + apply Forall_forall. intros j Hj%elem_of_seq.
      destruct (Hbefore j ltac:(lia)) as [t Ht]. exists t.
      unfold get_ndata. by rewrite Ht.
    + unfold get_ndata. by rewrite Hmiss.
Qed.

End network_extras.

Lemma update_requires_gathered_slots_witness :
  update bond factor_net chain_graph = Raise (KeyError "element[0]")
  ∧ update bond factor_net (gathered_graph angle chain)
      = Raise (KeyError "element[0]")
  ∧ returns (update bond factor_net (gathered_graph bond chain)).
Proof.
  destruct (update_requires_gathered_slots bond factor_net chain_graph)
    as [_ H1].
  destruct (update_requires_gathered_slots bond factor_net
              (gathered_graph angle chain)) as [_ H2].
  split; [|split].
  - apply (H1 0); [by eexists|simpl; lia|intros j Hj; lia|].
    vm_compute. reflexivity.
  - apply (H2 0); [by eexists|simpl; lia|intros j Hj; lia|].
    vm_compute. reflexivity.
  - eexists. vm_compute. reflexivity.
Defined.

(* ===================================================================== *)
(** ** Errors of the dataset adapter *)
(* ===================================================================== *)

Section get_graph_errors.
Context {Collection RecordT Entry Mol Snapshot Array Feature Graph : Type}.
Variable get_record : Collection → string → res RecordT.
Variable get_entry : Collection → string → res Entry.
Variable from_qcschema : Entry → res Mol.
Variable get_trajectory : RecordT → res (option (list Snapshot)).
Variable esp_Graph : Mol → res Graph.
Variable graph_set_data : Graph → string → string → Feature → res Graph.
Variable scf_total_energy : Snapshot → res Array.
Variable geometry : Snapshot → res Array.
Variable return_result : Snapshot → res Array.
Variable shape : Array → list nat.
Variable energy_tensor : list Array → Feature.
Variable stacked_tensor : list Array → Feature.

Local Abbreviation fetch' := (get_graph get_record get_entry from_qcschema
  get_trajectory esp_Graph graph_set_data scf_total_energy geometry
  return_result shape energy_tensor stacked_tensor).

(** X9.  Only the retrieval of the trajectory is guarded: an exception of
    the record lookup, of the entry lookup or of the molecule construction
    is raised by [get_graph] unchanged, whatever the trajectory; and once a
    trajectory is there, an exception of [esp.Graph] or of the energy
    conversion of a snapshot is raised as well.  So None is returned only
    after record, entry and molecule were obtained. *)
Theorem get_graph_propagates_errors (collection : Collection)
    (record_name : string) (e : exn) :
  (get_record collection record_name = Raise e →
     fetch' collection record_name = Raise e)
  ∧ (∀ record, get_record collection record_name = Return record →
     (get_entry collection record_name = Raise e →
        fetch' collection record_name = Raise e)
     ∧ ∀ entry, get_entry collection record_name = Return entry →
       (from_qcschema entry = Raise e →
          fetch' collection record_name = Raise e)
       ∧ ∀ mol trajectory, from_qcschema entry = Return mol →
           get_trajectory record = Return (Some trajectory) →
           (esp_Graph mol = Raise e →
              fetch' collection record_name = Raise e)
           ∧ ∀ g0, esp_Graph mol = Return g0 →
               mapM scf_total_energy trajectory = Raise e →
               fetch' collection record_name = Raise e)
  ∧ (fetch' collection record_name = Return None →
       ∃ record entry mol,
         get_record collection record_name = Return record
         ∧ get_entry collection record_name = Return entry
         ∧ from_qcschema entry = Return mol).
Proof.
  unfold get_graph. split; [by intros ->|]. split.
  - intros record ->. cbn [mbind res_bind]. split; [by intros ->|].
    intros entry ->. cbn [mbind res_bind]. split; [by intros ->|].
    intros mol trajectory -> Htraj. cbn [mbind res_bind].
    unfold usable_trajectory. rewrite Htraj. split; [by intros ->|].
    intros g0 -> Hen. cbn [mbind res_bind]. by rewrite Hen.
  - destruct (get_record collection record_name) as [record|];
      cbn [mbind res_bind]; [|done].
    destruct (get_entry collection record_name) as [entry|];
      cbn [mbind res_bind]; [|done].
    destruct (from_qcschema entry) as [mol|] eqn:Hmol;
      cbn [mbind res_bind]; [|done].
    intros _. by exists record, entry, mol.
Qed.

End get_graph_errors.
